(** * voice-chat front end: the streaming chat submission handlers

    A shallow embedding of the two submission entry points of the React
    front end,

    - [BottomSection.handleSend]  (Components/SideBar/Sidebar.jsx, third
      document of the file, lines 135-209), and
    - [Main.handleQueryClick]     (Main component, lines 33-99),

    together with the platform pieces they call: the UTF-8 [TextDecoder]
    of the WHATWG Encoding Standard used in streaming mode, the [fetch]
    response and its body reader (taken as a script of what the network
    delivers), and the React state setters (taken as effects applied to a
    store of the state variables declared in Context.jsx and Main).

    JavaScript strings are sequences of UTF-16 code units, byte chunks are
    [Uint8Array]s; both are kept as such. *)

From Stdlib Require Import ZArith Lia Bool.
From Stdlib.Strings Require Import Byte Ascii String.
From stdpp Require Import base tactics option list.

Local Open Scope Z_scope.

(** ** JavaScript strings *)

(** A JS string: its UTF-16 code units. *)
Definition JsString : Type := list Z.

(** An ASCII literal of the source as a JS string. *)
Definition js (s : string) : JsString :=
  map (fun a => Z.of_N (N_of_ascii a)) (list_ascii_of_string s).

(** [!s] for a string [s]: only the empty string is falsy. *)
Definition falsy (s : JsString) : bool :=
  match s with
  | [] => true
  | _ :: _ => false
  end.

(** ** The UTF-8 decoder of [TextDecoder] (WHATWG Encoding, section 9.1.1) *)

Module Utf8.

Record Utf8Decoder : Type := mkDecoder {
  code_point : Z;
  bytes_seen : nat;
  bytes_needed : nat;
  lower_boundary : Z;
  upper_boundary : Z
}.

Definition initial : Utf8Decoder := mkDecoder 0 0 0 0x80 0xBF.

(** What the handler returns for one byte. [DecodeError _ true] is the
    case where the byte is restored to the I/O queue before the error
    is returned. *)
Inductive HandlerResult : Type :=
| Continue (d : Utf8Decoder)
| CodePoint (d : Utf8Decoder) (cp : Z)
| DecodeError (d : Utf8Decoder) (restore : bool).

Definition in_range (lo hi x : Z) : bool := (lo <=? x) && (x <=? hi).

Definition byte_val (b : byte) : Z := Z.of_N (Byte.to_N b).

(** The handler, for a byte (the end-of-queue item is [at_end_of_queue]). *)
Definition handler (d : Utf8Decoder) (b : byte) : HandlerResult :=
  let byte := byte_val b in
  match bytes_needed d with
  | O =>
      if in_range 0x00 0x7F byte then CodePoint d byte
      else if in_range 0xC2 0xDF byte then
        Continue (mkDecoder (Z.land byte 0x1F) (bytes_seen d) 1
                            (lower_boundary d) (upper_boundary d))
      else if in_range 0xE0 0xEF byte then
        let lower := if byte =? 0xE0 then 0xA0 else lower_boundary d in
        let upper := if byte =? 0xED then 0x9F else upper_boundary d in
        Continue (mkDecoder (Z.land byte 0xF) (bytes_seen d) 2 lower upper)
      else if in_range 0xF0 0xF4 byte then
        let lower := if byte =? 0xF0 then 0x90 else lower_boundary d in
        let upper := if byte =? 0xF4 then 0x8F else upper_boundary d in
        Continue (mkDecoder (Z.land byte 0x7) (bytes_seen d) 3 lower upper)
      else DecodeError d false
  | S _ =>
      if negb (in_range (lower_boundary d) (upper_boundary d) byte) then
        DecodeError initial true
      else
        let cp := Z.lor (Z.shiftl (code_point d) 6) (Z.land byte 0x3F) in
        let seen := S (bytes_seen d) in
        if Nat.eqb seen (bytes_needed d) then CodePoint initial cp
        else Continue (mkDecoder cp seen (bytes_needed d) 0x80 0xBF)
  end.

(** The handler at end-of-queue: [Some d'] is the error returned when a
    sequence is still open, [None] is finished. *)
Definition at_end_of_queue (d : Utf8Decoder) : option Utf8Decoder :=
  match bytes_needed d with
  | O => None
  | S _ => Some (mkDecoder (code_point d) (bytes_seen d) 0
                           (lower_boundary d) (upper_boundary d))
  end.

Definition REPLACEMENT : Z := 0xFFFD.

(** Processing one item of the queue in error mode "replacement": the
    scalar values pushed to the output.  A restored byte is read again
    at once; the decoder has then been reset, so it is handled by the
    [bytes_needed = 0] branch, which never restores. *)
Definition process_item (d : Utf8Decoder) (b : byte) : Utf8Decoder * list Z :=
  match handler d b with
  | Continue d' => (d', [])
  | CodePoint d' cp => (d', [cp])
  | DecodeError d' false => (d', [REPLACEMENT])
  | DecodeError d' true =>
      match handler d' b with
      | Continue d'' => (d'', [REPLACEMENT])
      | CodePoint d'' cp => (d'', [REPLACEMENT; cp])
      | DecodeError d'' _ => (d'', [REPLACEMENT; REPLACEMENT])
      end
  end.

(** Reading the I/O queue up to end-of-queue. *)
Fixpoint process_queue (d : Utf8Decoder) (queue : list byte)
  : Utf8Decoder * list Z :=
  match queue with
  | [] => (d, [])
  | b :: rest =>
      let '(d1, out1) := process_item d b in
      let '(d2, out2) := process_queue d1 rest in
      (d2, out1 ++ out2)
  end.

(** The UTF-8 encoder (WHATWG Encoding, section 9.1.2): the bytes a
    scalar value is sent as. *)
Definition to_byte (z : Z) : byte :=
  match Byte.of_N (Z.to_N z) with
  | Some b => b
  | None => x00
  end.

Fixpoint continuation (count : nat) (cp : Z) : list byte :=
  match count with
  | O => []
  | S count' =>
      to_byte (Z.lor 0x80 (Z.land (Z.shiftr cp (6 * Z.of_nat count')) 0x3F))
        :: continuation count' cp
  end.

Definition encode (cp : Z) : list byte :=
  if in_range 0x00 0x7F cp then [to_byte cp]
  else
    let '(count, offset) :=
      if in_range 0x80 0x7FF cp then (1%nat, 0xC0)
      else if in_range 0x800 0xFFFF cp then (2%nat, 0xE0)
      else (3%nat, 0xF0) in
    to_byte (Z.shiftr cp (6 * Z.of_nat count) + offset)
      :: continuation count cp.

(** Scalar values: the code points that are not surrogates. *)
Definition is_scalar (cp : Z) : bool :=
  in_range 0 0xD7FF cp || in_range 0xE000 0x10FFFF cp.

Definition decoder_eqb (d1 d2 : Utf8Decoder) : bool :=
  (code_point d1 =? code_point d2)
  && Nat.eqb (bytes_seen d1) (bytes_seen d2)
  && Nat.eqb (bytes_needed d1) (bytes_needed d2)
  && (lower_boundary d1 =? lower_boundary d2)
  && (upper_boundary d1 =? upper_boundary d2).

(** Decoding the encoding of [cp] from the initial state gives [cp] and
    the initial state back, as a check that can be run. *)
Definition roundtrips (cp : Z) : bool :=
  if is_scalar cp then
    match process_queue initial (encode cp) with
    | (d, [c]) => (c =? cp) && decoder_eqb d initial
    | _ => false
    end
  else true.

(** [roundtrips] on the [2 ^ bits] values from [base] on. *)
Fixpoint all_from (bits : nat) (base : Z) : bool :=
  match bits with
  | O => roundtrips base
  | S b => all_from b base && all_from b (base + 2 ^ Z.of_nat b)
  end.

End Utf8.

(** ** [TextDecoder] *)

Module TextDecoder.

(** [new TextDecoder()]: encoding UTF-8, error mode replacement,
    [ignoreBOM] false.  Between two [decode] calls the I/O queue is
    empty (a call reads it up to end-of-queue), so the object is its
    decoder and its two flags. *)
Record t : Type := mk {
  decoder : Utf8.Utf8Decoder;
  do_not_flush : bool;
  BOM_seen : bool
}.

Definition new : t := mk Utf8.initial false false.

(** "serialize I/O queue": the first scalar value of the stream is
    dropped when it is U+FEFF. *)
Definition serialize (bom_seen : bool) (output : list Z) : bool * list Z :=
  match output with
  | [] => (bom_seen, [])
  | item :: rest =>
      if bom_seen then (true, output)
      else if item =? 0xFEFF then (true, rest)
      else (true, output)
  end.

(** A scalar value as UTF-16 code units. *)
Definition code_units (cp : Z) : JsString :=
  if cp <? 0x10000 then [cp]
  else [0xD800 + Z.shiftr (cp - 0x10000) 10;
        0xDC00 + Z.land (cp - 0x10000) 0x3FF].

Definition to_string (scalars : list Z) : JsString :=
  concat (map code_units scalars).

(** [decoder.decode(input, { stream })]. *)
Definition decode (td : t) (input : list byte) (stream : bool)
  : t * JsString :=
  let d0 := if do_not_flush td then decoder td else Utf8.initial in
  let bom0 := if do_not_flush td then BOM_seen td else false in
  let '(d1, out1) := Utf8.process_queue d0 input in
  let '(d2, out2) :=
    if stream then (d1, out1)
    else match Utf8.at_end_of_queue d1 with
         | Some d' => (d', out1 ++ [Utf8.REPLACEMENT])
         | None => (d1, out1)
         end in
  let '(bom, out) := serialize bom0 out2 in
  (mk d2 stream bom, to_string out).

End TextDecoder.

(** ** Exceptions and completions *)

Inductive JsError : Type :=
| Error (message : string)          (* [new Error(message)] *)
| TypeError (message : string)      (* rejected fetch, rejected read, null body *)
| ReferenceError (name : string).   (* an identifier with no binding in scope *)

(** How a piece of JavaScript ends: normally with a value, or abruptly
    with a thrown exception. *)
Inductive Completion (A : Type) : Type :=
| Normal (a : A)
| Abrupt (e : JsError).
Arguments Normal {A} a.
Arguments Abrupt {A} e.

(** [Array.prototype.map] with a callback [(element, index) => ...] that
    may throw: the callback runs on the elements in index order and the
    first exception ends the call; on the empty array it never runs. *)
Fixpoint Array_map_from {A B : Type} (callback : A -> nat -> Completion B)
    (index : nat) (array : list A) : Completion (list B) :=
  match array with
  | [] => Normal []
  | element :: rest =>
      match callback element index with
      | Abrupt e => Abrupt e
      | Normal b =>
          match Array_map_from callback (S index) rest with
          | Abrupt e => Abrupt e
          | Normal bs => Normal (b :: bs)
          end
      end
  end.

Definition Array_map {A B : Type} (callback : A -> nat -> Completion B)
    (array : list A) : Completion (list B) :=
  Array_map_from callback 0%nat array.

(** ** The chat history and the React state *)

Inductive ChatType : Type := user | bot.

(** An entry of [chatHistory]. User entries are created without a
    [loading] property ([None]); bot entries carry it. *)
Record Chat : Type := mkChat {
  type : ChatType;
  text : JsString;
  loading : option bool
}.

(** [chat.loading ? <ResponseLoader /> : <p ... chat.text />] (Main, line
    149): the entry shows the loader instead of its text. *)
Definition shows_loader (chat : Chat) : bool :=
  match loading chat with
  | Some true => true
  | _ => false
  end.

(** [{ ...chat, text: t, loading: false }] *)
Definition with_text (chat : Chat) (t : JsString) : Chat :=
  mkChat (type chat) t (Some false).

(** The state variables the handlers write: [chatHistory] is Main's
    [useState([])], the others are the context's (Context.jsx, lines
    6-14).  A setter called with an updater function applies it to the
    latest value of its state variable.  React runs the updater when it
    renders the component that owns the state, and an exception thrown
    by the updater comes out of that render: with no error boundary, as
    here, React then drops every update of the task in which the updater
    threw and unmounts the tree.  [apply_effect] below applies the
    setters one at a time and goes on after a throw, which it records in
    [uncaught]: the history and the previous prompts keep their last
    committed values, but the other variables written in the task of the
    throw ([response], [loadings]) get values React never commits.  A
    store is what React has committed as long as it is [mounted]. *)
Record Store : Type := mkStore {
  chatHistory : list Chat;
  previousPrompt : list JsString;
  recentPrompt : JsString;
  input : JsString;
  response : JsString;
  showResult : bool;
  loadings : bool;
  uncaught : list JsError
}.

(** The store at launch. *)
Definition initialStore : Store :=
  mkStore [] [] [] [] [] false false [].

(** The body of the POST request of both handlers. *)
Record ChatRequest : Type := mkRequest {
  url : string;
  method : string;
  content_type : string;
  question : JsString;
  provider : string;
  model : string
}.

(** What a handler does to the outside, in program order. [Fetch] and
    [Read] are the two [await] points: the code after them runs in a
    later task. *)
Inductive Effect : Type :=
| PreventDefault
| SetShowResult (b : bool)
| SetLoadings (b : bool)
| SetRecentPrompt (s : JsString)
| SetInput (s : JsString)
| SetResponse (s : JsString)
| SetChatHistory (updater : list Chat -> Completion (list Chat))
| SetPreviousPrompt (updater : list JsString -> list JsString)
| Fetch (request : ChatRequest)
| Read
| ConsoleError (e : JsError).

Definition apply_effect (s : Store) (e : Effect) : Store :=
  match e with
  | SetShowResult b =>
      mkStore (chatHistory s) (previousPrompt s) (recentPrompt s) (input s)
              (response s) b (loadings s) (uncaught s)
  | SetLoadings b =>
      mkStore (chatHistory s) (previousPrompt s) (recentPrompt s) (input s)
              (response s) (showResult s) b (uncaught s)
  | SetRecentPrompt p =>
      mkStore (chatHistory s) (previousPrompt s) p (input s)
              (response s) (showResult s) (loadings s) (uncaught s)
  | SetInput i =>
      mkStore (chatHistory s) (previousPrompt s) (recentPrompt s) i
              (response s) (showResult s) (loadings s) (uncaught s)
  | SetResponse r =>
      mkStore (chatHistory s) (previousPrompt s) (recentPrompt s) (input s)
              r (showResult s) (loadings s) (uncaught s)
  | SetChatHistory updater =>
      match updater (chatHistory s) with
      | Normal h =>
          mkStore h (previousPrompt s) (recentPrompt s) (input s)
                  (response s) (showResult s) (loadings s) (uncaught s)
      | Abrupt err =>
          mkStore (chatHistory s) (previousPrompt s) (recentPrompt s) (input s)
                  (response s) (showResult s) (loadings s) (uncaught s ++ [err])
      end
  | SetPreviousPrompt updater =>
      mkStore (chatHistory s) (updater (previousPrompt s)) (recentPrompt s)
              (input s) (response s) (showResult s) (loadings s) (uncaught s)
  | PreventDefault | Fetch _ | Read | ConsoleError _ => s
  end.

(** The store after a sequence of effects, and every store on the way
    (the store after each single effect, the finest an observer can see). *)
Definition run (effects : list Effect) (s : Store) : Store :=
  foldl apply_effect s effects.

Fixpoint trace (effects : list Effect) (s : Store) : list Store :=
  match effects with
  | [] => []
  | e :: rest => apply_effect s e :: trace rest (apply_effect s e)
  end.

(** No state updater has thrown: every task so far has been rendered and
    the tree is still mounted. *)
Definition mounted (s : Store) : Prop := uncaught s = [].

(** ** Asynchronous functions

    A call of an [async] function is described by what it does to the
    outside, in order, and by how it completes. *)

Definition Async (A : Type) : Type := (list Effect * Completion A)%type.

Definition ret {A : Type} (a : A) : Async A := ([], Normal a).
Definition throw {A : Type} (e : JsError) : Async A := ([], Abrupt e).
Definition emit (e : Effect) : Async unit := ([e], Normal tt).

Definition bind {A B : Type} (c : Async A) (k : A -> Async B) : Async B :=
  match c with
  | (effects, Normal a) =>
      let '(effects', r) := k a in (effects ++ effects', r)
  | (effects, Abrupt e) => (effects, Abrupt e)
  end.

Notation "x <- c ;; k" := (bind c (fun x => k))
  (at level 100, c at next level, right associativity).
Notation "c ;; k" := (bind c (fun _ => k))
  (at level 100, right associativity).

(** [try { body } catch (error) { handler } finally { finalizer }] *)
Definition try_catch_finally {A : Type} (body : Async A)
    (handler : JsError -> Async A) (finalizer : Async unit) : Async A :=
  let '(effects1, r1) :=
    match body with
    | (effects, Normal a) => (effects, Normal a)
    | (effects, Abrupt error) =>
        let '(effects', r) := handler error in (effects ++ effects', r)
    end in
  match finalizer with
  | (effects2, Normal _) => (effects1 ++ effects2, r1)
  | (effects2, Abrupt e) => (effects1 ++ effects2, Abrupt e)
  end.

(** Evaluating an identifier that has no binding in any enclosing scope. *)
Definition unresolved {A : Type} (name : string) : Completion A :=
  Abrupt (ReferenceError name).

(** ** The network, as the handlers meet it *)

Inductive StreamEnd : Type :=
| EndOfStream     (* [read()] resolves to [{ done: true }] *)
| ReadRejects.    (* [read()] rejects: the connection broke *)

(** The body stream: the chunks it delivers, then how it ends. *)
Record Body : Type := mkBody {
  chunks : list (list byte);
  ending : StreamEnd
}.

(** [res.ok] is true exactly for a 2xx status; [res.body] may be null. *)
Record Response : Type := mkResponse {
  ok : bool;
  body : option Body
}.

Inductive Network : Type :=
| FetchRejects                     (* connection refused and the like *)
| FetchResolves (res : Response).

Definition fetch (request : ChatRequest) (net : Network) : Async Response :=
  emit (Fetch request) ;;
  match net with
  | FetchRejects => throw (TypeError "Failed to fetch")
  | FetchResolves res => ret res
  end.

(** [res.body.getReader()] *)
Definition getReader (res : Response) : Async Body :=
  match body res with
  | None => throw (TypeError "Cannot read properties of null")
  | Some b => ret b
  end.

Definition chat_request (q : JsString) : ChatRequest :=
  mkRequest "http://localhost:8000/chat" "POST" "application/json"
            q "openai" "gpt-4o-mini".

(** ** [BottomSection] (Sidebar.jsx, third document, lines 123-237) *)

Module BottomSection.

(** Lines 180-186, the updater passed to [setChatHistory] per chunk. *)
Definition streaming_updater (loaderIndex : nat)
    (accumulatedResponse : JsString) (prev : list Chat)
  : Completion (list Chat) :=
  Array_map (fun chat index =>
    Normal (if Nat.eqb index (loaderIndex + 1)
            then with_text chat accumulatedResponse
            else chat)) prev.

(** Lines 198-204, the updater of the [catch] block.  [loaderIndex] is
    a [const] of the [try] block (line 145) and the [catch] block is not
    inside it: the identifier has no binding where the callback
    evaluates it. *)
Definition error_updater (errorMessage : JsString) (prev : list Chat)
  : Completion (list Chat) :=
  Array_map (fun chat index =>
    match unresolved "loaderIndex" with
    | Abrupt e => Abrupt e
    | Normal loaderIndex =>
        Normal (if Nat.eqb index (loaderIndex + 1)
                then with_text chat errorMessage
                else chat)
    end) prev.

(** Lines 172-187, the [while (true)] loop over [reader.read()]. *)
Fixpoint read_loop (loaderIndex : nat) (decoder : TextDecoder.t)
    (accumulatedResponse : JsString) (pending : list (list byte))
    (ending : StreamEnd) {struct pending} : Async JsString :=
  match pending with
  | [] =>
      emit Read ;;
      match ending with
      | EndOfStream => ret accumulatedResponse
      | ReadRejects => throw (TypeError "network error")
      end
  | value :: rest =>
      emit Read ;;
      let '(decoder, chunk) := TextDecoder.decode decoder value true in
      let accumulatedResponse := accumulatedResponse ++ chunk in
      emit (SetChatHistory
              (streaming_updater loaderIndex accumulatedResponse)) ;;
      read_loop loaderIndex decoder accumulatedResponse rest ending
  end.

(** Lines 135-209.  [chatHistory] is the prop and [input] the context
    value of the render the handler was created in. *)
Definition handleSend (chatHistory : list Chat) (input : JsString)
    (net : Network) : Async unit :=
  emit PreventDefault ;;
  if falsy input then ret tt
  else
    try_catch_finally
      ( emit (SetShowResult true) ;;
        emit (SetLoadings true) ;;
        emit (SetRecentPrompt input) ;;
        let loaderIndex := length chatHistory in
        emit (SetChatHistory (fun prev =>
                Normal (prev ++ [ mkChat user input None;
                                  mkChat bot [] (Some true) ]))) ;;
        emit (SetInput []) ;;
        res <- fetch (chat_request input) net ;;
        if negb (ok res)
        then throw (Error "Failed to fetch response from the server.")
        else
          reader <- getReader res ;;
          let decoder := TextDecoder.new in
          accumulatedResponse <-
            read_loop loaderIndex decoder [] (chunks reader) (ending reader) ;;
          emit (SetResponse accumulatedResponse) ;;
          emit (SetPreviousPrompt (fun prev => prev ++ [input])) )
      (fun error =>
        emit (ConsoleError error) ;;
        let errorMessage := js "An error occurred. Please try again." in
        emit (SetResponse errorMessage) ;;
        emit (SetChatHistory (error_updater errorMessage)))
      ( emit (SetLoadings false) ).

End BottomSection.

(** ** [Main] (lines 12-169) *)

Module Main.

(** Lines 73-79. *)
Definition streaming_updater (loaderIndex : nat)
    (accumulatedResponse : JsString) (prev : list Chat)
  : Completion (list Chat) :=
  Array_map (fun chat index =>
    Normal (if Nat.eqb index (loaderIndex + 1)
            then with_text chat accumulatedResponse
            else chat)) prev.

(** Lines 89-95; [loaderIndex] is declared at line 40 inside the [try]
    block and has no binding in the [catch] block. *)
Definition error_updater (errorMessage : JsString) (prev : list Chat)
  : Completion (list Chat) :=
  Array_map (fun chat index =>
    match unresolved "loaderIndex" with
    | Abrupt e => Abrupt e
    | Normal loaderIndex =>
        Normal (if Nat.eqb index (loaderIndex + 1)
                then with_text chat errorMessage
                else chat)
    end) prev.

(** Lines 65-80. *)
Fixpoint read_loop (loaderIndex : nat) (decoder : TextDecoder.t)
    (accumulatedResponse : JsString) (pending : list (list byte))
    (ending : StreamEnd) {struct pending} : Async JsString :=
  match pending with
  | [] =>
      emit Read ;;
      match ending with
      | EndOfStream => ret accumulatedResponse
      | ReadRejects => throw (TypeError "network error")
      end
  | value :: rest =>
      emit Read ;;
      let '(decoder, chunk) := TextDecoder.decode decoder value true in
      let accumulatedResponse := accumulatedResponse ++ chunk in
      emit (SetChatHistory
              (streaming_updater loaderIndex accumulatedResponse)) ;;
      read_loop loaderIndex decoder accumulatedResponse rest ending
  end.

(** Lines 33-99.  [chatHistory] is the state value of the render the
    handler was created in. *)
Definition handleQueryClick (chatHistory : list Chat) (query : JsString)
    (net : Network) : Async unit :=
  try_catch_finally
    ( emit (SetShowResult true) ;;
      emit (SetLoadings true) ;;
      emit (SetRecentPrompt query) ;;
      let loaderIndex := length chatHistory in
      emit (SetChatHistory (fun prev =>
              Normal (prev ++ [ mkChat user query None;
                                mkChat bot [] (Some true) ]))) ;;
      res <- fetch (chat_request query) net ;;
      if negb (ok res)
      then throw (Error "Failed to fetch response from the server.")
      else
        reader <- getReader res ;;
        let decoder := TextDecoder.new in
        accumulatedResponse <-
          read_loop loaderIndex decoder [] (chunks reader) (ending reader) ;;
        emit (SetPreviousPrompt (fun prev => prev ++ [query])) )
    (fun error =>
      emit (ConsoleError error) ;;
      let errorMessage := js "An error occurred. Please try again." in
      emit (SetChatHistory (error_updater errorMessage)))
    ( emit (SetLoadings false) ).

End Main.

(** ** The running application

    A handler call runs up to its next [await] and is suspended there;
    other events (typing, another submission, another call resuming) run
    in between.  The handlers read the store only through the values of
    the render they were created in, which React refreshes after every
    task, so a call takes them from the store at the moment it starts.

    [step] accepts every event in every state, also once an updater has
    thrown and React has unmounted the tree, where the program offers no
    form and no card any more: the states of [exec] include all those
    the program reaches, and more.  What is proved of every state of
    [exec] holds of the program's, as long as it does not read a value
    that React never commits (see [Store]). *)

Definition is_await (e : Effect) : bool :=
  match e with
  | Fetch _ | Read => true
  | _ => false
  end.

(** The run-to-completion pieces of a call: each ends at an [await]. *)
Fixpoint segments (effects : list Effect) : list (list Effect) :=
  match effects with
  | [] => []
  | e :: rest =>
      if is_await e then [e] :: segments rest
      else match segments rest with
           | [] => [[e]]
           | seg :: segs => (e :: seg) :: segs
           end
  end.

(** The store and the suspended calls (what each still has to run). *)
Record App : Type := mkApp {
  store : Store;
  suspended : list (list (list Effect))
}.

Definition initialApp : App := mkApp initialStore [].

Inductive Event : Type :=
| Typing (value : JsString)
    (* [onChange] of the input box: [setInput(event.target.value)] *)
| Submit (net : Network)
    (* [onSubmit] of the form: [handleSend], meeting [net] *)
| QueryClick (query : JsString) (net : Network)
    (* a query card, rendered while [showResult] is false (Main, line
       135): [handleQueryClick(query)], meeting [net] *)
| Resume (i : nat).
    (* the promise awaited by the [i]-th suspended call settles *)

Definition start (call : Async unit) (a : App) : App :=
  match segments (fst call) with
  | [] => a
  | [seg] => mkApp (run seg (store a)) (suspended a)
  | seg :: rest => mkApp (run seg (store a)) (suspended a ++ [rest])
  end.

Definition step (a : App) (ev : Event) : App :=
  match ev with
  | Typing value => mkApp (apply_effect (store a) (SetInput value)) (suspended a)
  | Submit net =>
      start (BottomSection.handleSend
               (chatHistory (store a)) (input (store a)) net) a
  | QueryClick query net =>
      if showResult (store a) then a
      else start (Main.handleQueryClick (chatHistory (store a)) query net) a
  | Resume i =>
      match suspended a !! i with
      | Some (seg :: (_ :: _) as rest) =>
          mkApp (run seg (store a)) (<[i := rest]> (suspended a))
      | Some [seg] =>
          mkApp (run seg (store a)) (delete i (suspended a))
      | _ => a
      end
  end.

Definition exec (events : list Event) (a : App) : App :=
  foldl step a events.

(** ** The two entry points, seen from a store *)

Inductive EntryPoint : Type :=
| ViaForm                          (* [BottomSection.handleSend] *)
| ViaQueryCard (query : JsString). (* [Main.handleQueryClick] *)

Definition call (ep : EntryPoint) (s : Store) (net : Network) : Async unit :=
  match ep with
  | ViaForm => BottomSection.handleSend (chatHistory s) (input s) net
  | ViaQueryCard query => Main.handleQueryClick (chatHistory s) query net
  end.

(** The question a call submits. *)
Definition question_of (ep : EntryPoint) (s : Store) : JsString :=
  match ep with
  | ViaForm => input s
  | ViaQueryCard query => query
  end.

(** The call gets past the handler's own guard (line 137 of
    [handleSend]; [handleQueryClick] has none). *)
Definition accepted (ep : EntryPoint) (s : Store) : bool :=
  match ep with
  | ViaForm => negb (falsy (input s))
  | ViaQueryCard _ => true
  end.

(** The ways an accepted call can meet the network. *)
Definition stream_of (bytes : list (list byte)) (e : StreamEnd) : Network :=
  FetchResolves (mkResponse true (Some (mkBody bytes e))).

Definition succeeds (net : Network) : bool :=
  match net with
  | FetchResolves (mkResponse true (Some (mkBody _ EndOfStream))) => true
  | _ => false
  end.

(** The text fragments the decoder returns for the chunks, in order. *)
Fixpoint decoded_chunks (decoder : TextDecoder.t) (bytes : list (list byte))
  : list JsString :=
  match bytes with
  | [] => []
  | value :: rest =>
      let '(decoder', chunk) := TextDecoder.decode decoder value true in
      chunk :: decoded_chunks decoder' rest
  end.

Definition errorMessage : JsString := js "An error occurred. Please try again.".

(** ** Vocabulary for the statements *)

(** The updater of lines 146-150 ([handleSend]) and 41-45
    ([handleQueryClick]): the user entry and the loading bot entry. *)
Definition append_pair (q : JsString) (prev : list Chat)
  : Completion (list Chat) :=
  Normal (prev ++ [ mkChat user q None; mkChat bot [] (Some true) ]).

(** The text shown at an index of the history (empty when there is no
    such entry). *)
Definition text_at (h : list Chat) (i : nat) : JsString :=
  from_option text [] (h !! i).

(** Successive texts each extending the one before. *)
Definition non_decreasing (texts : list JsString) : Prop :=
  forall j k tj tk, (j <= k)%nat ->
    texts !! j = Some tj -> texts !! k = Some tk -> tj `prefix_of` tk.


Definition is_fetch (e : Effect) : bool :=
  match e with
  | Fetch _ => true
  | _ => false
  end.

(** A call in closed form: what it does before the request is out, in
    the read loop, after the loop or in the [catch] block, and last. *)
Definition opening (ep : EntryPoint) (q : JsString) : list Effect :=
  match ep with
  | ViaForm =>
      [ PreventDefault; SetShowResult true; SetLoadings true;
        SetRecentPrompt q; SetChatHistory (append_pair q); SetInput [];
        Fetch (chat_request q) ]
  | ViaQueryCard _ =>
      [ SetShowResult true; SetLoadings true;
        SetRecentPrompt q; SetChatHistory (append_pair q);
        Fetch (chat_request q) ]
  end.

Definition looping (loaderIndex : nat) (net : Network) : list Effect :=
  match net with
  | FetchResolves (mkResponse true (Some b)) =>
      fst (BottomSection.read_loop loaderIndex TextDecoder.new []
             (chunks b) (ending b))
  | _ => []
  end.

(** The exception that reaches the [catch] block, if any. *)
Definition thrown (net : Network) : option JsError :=
  match net with
  | FetchRejects => Some (TypeError "Failed to fetch")
  | FetchResolves (mkResponse false _) =>
      Some (Error "Failed to fetch response from the server.")
  | FetchResolves (mkResponse true None) =>
      Some (TypeError "Cannot read properties of null")
  | FetchResolves (mkResponse true (Some (mkBody _ ReadRejects))) =>
      Some (TypeError "network error")
  | FetchResolves (mkResponse true (Some (mkBody _ EndOfStream))) => None
  end.

(** The chunks the loop gets to read. *)
Definition delivered (net : Network) : list (list byte) :=
  match net with
  | FetchResolves (mkResponse true (Some b)) => chunks b
  | _ => []
  end.

Definition closing (ep : EntryPoint) (q : JsString) (net : Network)
  : list Effect :=
  match thrown net, ep with
  | None, ViaForm =>
      [ SetResponse (concat (decoded_chunks TextDecoder.new (delivered net)));
        SetPreviousPrompt (fun prev => prev ++ [q]) ]
  | None, ViaQueryCard _ =>
      [ SetPreviousPrompt (fun prev => prev ++ [q]) ]
  | Some error, ViaForm =>
      [ ConsoleError error; SetResponse errorMessage;
        SetChatHistory (BottomSection.error_updater errorMessage) ]
  | Some error, ViaQueryCard _ =>
      [ ConsoleError error;
        SetChatHistory (Main.error_updater errorMessage) ]
  end.

(** An effect of the read loop for a given [loaderIndex]. *)
Definition streaming_step (loaderIndex : nat) (e : Effect) : Prop :=
  e = Read \/
  exists accumulatedResponse,
    e = SetChatHistory
          (BottomSection.streaming_updater loaderIndex accumulatedResponse).

(** The two stores agree on everything but the chat history. *)
Definition same_context (s s' : Store) : Prop :=
  previousPrompt s' = previousPrompt s /\ recentPrompt s' = recentPrompt s /\
  input s' = input s /\ response s' = response s /\
  showResult s' = showResult s /\ loadings s' = loadings s /\
  uncaught s' = uncaught s.

(** What an effect issued after the pair was appended may be, as far as
    the history goes: a per-chunk update, the update of the [catch]
    block, or no history update at all. *)
Definition after_append (loaderIndex : nat) (e : Effect) : Prop :=
  match e with
  | SetChatHistory u =>
      (exists accumulatedResponse,
         u = BottomSection.streaming_updater loaderIndex accumulatedResponse)
      \/ (exists message, u = BottomSection.error_updater message)
  | _ => True
  end.

(** What a call does synchronously, inside the event that starts it. *)
Definition first_segment (c : Async unit) : list Effect :=
  hd [] (segments (fst c)).

(** Effects that touch neither the history nor the prompts, the flags or
    the uncaught exceptions. *)
Definition visible (e : Effect) : bool :=
  match e with
  | SetShowResult _ | SetLoadings _ | SetRecentPrompt _
  | SetChatHistory _ | SetPreviousPrompt _ => true
  | PreventDefault | SetInput _ | SetResponse _
  | Fetch _ | Read | ConsoleError _ => false
  end.

(** The part of the store the two entry points both write. *)
Definition shared (s : Store)
  : list Chat * list JsString * JsString * bool * bool * list JsError :=
  (chatHistory s, previousPrompt s, recentPrompt s, showResult s,
   loadings s, uncaught s).

(** ** Scenarios of the specification *)

Definition deadline_store : Store :=
  mkStore [] [] [] (js "What is the deadline?") [] false false [].

Definition deadline_net : Network :=
  stream_of [ list_byte_of_string "The dead";
              list_byte_of_string "line is Fri";
              list_byte_of_string "day." ] EndOfStream.

Definition ping_store : Store :=
  mkStore [] [] [] (js "Ping") [] false false [].

(** Status 500, no body. *)
Definition status_500 : Network := FetchResolves (mkResponse false None).

(** ** What the components show *)

(** One message of Main's result pane (lines 139-157). *)
Inductive Message : Type :=
| UserMessage (t : JsString)   (* the title row with [chat.text] *)
| ResponseLoader               (* [<ResponseLoader />] *)
| BotMessage (html : JsString). (* [chat.text] set as inner HTML *)

Definition render_chat (chat : Chat) : Message :=
  match type chat with
  | user => UserMessage (text chat)
  | bot => if shows_loader chat then ResponseLoader
           else BotMessage (text chat)
  end.

(** [chatHistory.map(...)] of the result pane. *)
Definition result (chatHistory : list Chat) : list Message :=
  map render_chat chatHistory.

(** [Sidebar], second document of Sidebar.jsx (lines 67-118). *)
Module Sidebar.

(** [handleExtension]: [setExtended((prevExtended) => !prevExtended)]. *)
Definition handleExtension (extended : bool) : bool := negb extended.

(** Line 100: [item.length > 15 ? item.slice(0, 20) + '...' : item].
    [slice] counts UTF-16 code units. *)
Definition recent_entry (item : JsString) : JsString :=
  if (15 <? length item)%nat then take 20 item ++ js "..." else item.

(** Lines 94-105: the entries under "Recents", shown when extended. *)
Definition recent (extended : bool) (previousPrompt : list JsString)
  : list JsString :=
  if extended then map recent_entry previousPrompt else [].

End Sidebar.

(** The earlier [Sidebar] (lines 5-52 of its file): every entry is
    [item.slice(0, 15)] followed by "...". *)
Module SidebarEarly.

Definition handleExtension (extended : bool) : bool := negb extended.

Definition recent_entry (item : JsString) : JsString :=
  take 15 item ++ js "...".

Definition recent (extended : bool) (previousPrompt : list JsString)
  : list JsString :=
  if extended then map recent_entry previousPrompt else [].

End SidebarEarly.

(** [HomePageContainer] (lines 6-35 of its file): the configuration
    form.  The three refs are read through [.current.value]; the three
    context variables start undefined ([useState()], Context.jsx lines
    19-21). *)
Module HomePageContainer.

Record Form : Type := mkForm {
  providerRef : JsString;
  providerKeyRef : JsString;
  unstructuredKeyRef : JsString
}.

Record Configuration : Type := mkConfiguration {
  apiProvider : option JsString;
  providerKey : option JsString;
  unstructuredKey : option JsString
}.

Record Page : Type := mkPage {
  form : Form;
  configuration : Configuration;
  console : list JsString   (* the values written by [console.log] *)
}.

Definition initialConfiguration : Configuration :=
  mkConfiguration None None None.

(** [handleSubmit], lines 15-35. *)
Definition handleSubmit (p : Page) : Page :=
  let Form_provider := providerRef (form p) in
  let Form_providerKey := providerKeyRef (form p) in
  let Form_unstructuredKey := unstructuredKeyRef (form p) in
  mkPage (mkForm [] [] [])
         (mkConfiguration (Some Form_provider) (Some Form_providerKey)
                          (Some Form_unstructuredKey))
         (console p ++ [Form_provider; Form_providerKey;
                        Form_unstructuredKey]).

End HomePageContainer.

(** ** Vocabulary for the invariants of the running application *)

(** The history is a sequence of pairs: a user entry at every even
    index, a bot entry at every odd one. *)
Definition paired (h : list Chat) : Prop :=
  Nat.even (length h) = true /\
  forall i c, h !! i = Some c ->
    type c = if Nat.even i then user else bot.

Definition adds_prompt (e : Effect) : bool :=
  match e with
  | SetPreviousPrompt _ => true
  | _ => false
  end.

(** What a call that was started with [chatHistory.length = loaderIndex]
    may still do once its request is out. *)
Definition resumable (loaderIndex : nat) (e : Effect) : Prop :=
  match e with
  | SetChatHistory u =>
      (exists accumulatedResponse,
         u = BottomSection.streaming_updater loaderIndex accumulatedResponse)
      \/ (exists message, u = BottomSection.error_updater message)
  | SetPreviousPrompt u =>
      exists q, u = (fun prev : list JsString => prev ++ [q])
  | SetLoadings b => b = false
  | SetResponse _ | Read | ConsoleError _ => True
  | PreventDefault | SetShowResult _ | SetRecentPrompt _
  | SetInput _ | Fetch _ => False
  end.

(** The prompts the suspended calls may still add. *)
Definition pending_prompts (tasks : list (list (list Effect))) : nat :=
  length (List.filter adds_prompt (concat (concat tasks))).

(** The invariant of the application: the history is paired; every
    suspended call has its own bot entry, at [loaderIndex + 1] for an
    even [loaderIndex] of its own, and only effects of [resumable] kind
    left; the result pane is on as soon as the history is not empty;
    and prompts, recorded or still to come, are at most one per pair. *)
Definition consistent (a : App) : Prop :=
  let h := chatHistory (store a) in
  paired h
  /\ (exists targets : list nat,
        Forall2 (fun li task =>
                   task <> [] /\ Forall (Forall (resumable li)) task)
                targets (suspended a)
        /\ NoDup targets
        /\ Forall (fun li => (li + 1 < length h)%nat
                             /\ Nat.even li = true) targets)
  /\ (h = [] \/ showResult (store a) = true)
  /\ (2 * (length (previousPrompt (store a))
           + pending_prompts (suspended a)) <= length h)%nat.

(** The texts a list of effects gives the entry at [loaderIndex + 1],
    each extending the one before, starting from [t]. *)
Fixpoint grows (loaderIndex : nat) (t : JsString) (effects : list Effect)
  : Prop :=
  match effects with
  | [] => True
  | SetChatHistory u :: rest =>
      (exists accumulatedResponse,
         u = BottomSection.streaming_updater loaderIndex accumulatedResponse
         /\ t `prefix_of` accumulatedResponse
         /\ grows loaderIndex accumulatedResponse rest)
      \/ (exists message,
            u = BottomSection.error_updater message
            /\ grows loaderIndex t rest)
  | _ :: rest => grows loaderIndex t rest
  end.

(** The store [s'] keeps what [s] has: the previous prompts of [s] are
    a prefix of those of [s'], the history is not shorter, every entry
    keeps its type and every user entry is untouched. *)
Definition keeps (s s' : Store) : Prop :=
  previousPrompt s `prefix_of` previousPrompt s'
  /\ (length (chatHistory s) <= length (chatHistory s'))%nat
  /\ (forall i c, chatHistory s !! i = Some c ->
        exists c', chatHistory s' !! i = Some c' /\ type c' = type c)
  /\ (forall i c, chatHistory s !! i = Some c -> type c = user ->
        chatHistory s' !! i = Some c).

(** Every suspended call still has its [setLoadings(false)] to come, as
    the last thing it does; and with no call suspended [loadings] is
    false. *)
Definition releasing (a : App) : Prop :=
  Forall (fun task => Forall (fun seg : list Effect => seg <> []) task
                      /\ last (concat task) = Some (SetLoadings false))
         (suspended a)
  /\ (suspended a = [] -> loadings (store a) = false).

(** The states the UTF-8 decoder can be in: idle, or inside a sequence
    with the bits read so far of a code point that can still become a
    scalar value. *)
Definition decoder_state_ok (d : Utf8.Utf8Decoder) : Prop :=
  let cp := Utf8.code_point d in
  let lo := Utf8.lower_boundary d in
  let hi := Utf8.upper_boundary d in
  match Utf8.bytes_needed d, Utf8.bytes_seen d with
  | 0%nat, _ => d = Utf8.initial
  | 1%nat, 0%nat => 2 <= cp <= 0x1F /\ lo = 0x80 /\ hi = 0xBF
  | 2%nat, 0%nat =>
      0 <= cp <= 0xF
      /\ lo = (if cp =? 0 then 0xA0 else 0x80)
      /\ hi = (if cp =? 0xD then 0x9F else 0xBF)
  | 2%nat, 1%nat =>
      (0x20 <= cp <= 0x35F \/ 0x380 <= cp <= 0x3FF)
      /\ lo = 0x80 /\ hi = 0xBF
  | 3%nat, 0%nat =>
      0 <= cp <= 4
      /\ lo = (if cp =? 0 then 0x90 else 0x80)
      /\ hi = (if cp =? 4 then 0x8F else 0xBF)
  | 3%nat, 1%nat => 0x10 <= cp <= 0x10F /\ lo = 0x80 /\ hi = 0xBF
  | 3%nat, 2%nat => 0x400 <= cp <= 0x43FF /\ lo = 0x80 /\ hi = 0xBF
  | _, _ => False
  end.

(** Bytes below 0x80. *)
Definition is_ascii (b : byte) : bool := Utf8.byte_val b <? 0x80.

(** ** Properties of the decoder *)

Section Decoder.

Import Utf8 TextDecoder.

Lemma process_queue_app d b1 b2 :
  process_queue d (b1 ++ b2)
  = let '(d1, out1) := process_queue d b1 in
    let '(d2, out2) := process_queue d1 b2 in
    (d2, out1 ++ out2).
Proof.
  revert d. induction b1 as [|b b1 IH]; intros d; simpl.
  - destruct (process_queue d b2); reflexivity.
  - destruct (process_item d b) as [d1 o1]. rewrite IH.
    destruct (process_queue d1 b1) as [d2 o2].
    destruct (process_queue d2 b2) as [d3 o3].
    by rewrite app_assoc.
Qed.

Lemma serialize_app bom out1 out2 :
  serialize bom (out1 ++ out2)
  = let '(bom1, s1) := serialize bom out1 in
    let '(bom2, s2) := serialize bom1 out2 in
    (bom2, s1 ++ s2).
Proof.
  destruct out1 as [|item rest]; cbn.
  - by destruct (serialize bom out2).
  - destruct bom; [|destruct (item =? 65279)]; destruct out2; cbn;
      rewrite ?app_nil_r; reflexivity.
Qed.

Lemma to_string_app out1 out2 :
  to_string (out1 ++ out2) = to_string out1 ++ to_string out2.
Proof. unfold to_string. by rewrite map_app, concat_app. Qed.

(** Streaming calls compose: decoding two chunks one after the other
    is decoding their concatenation. *)
Lemma decode_stream_app td b1 b2 :
  decode td (b1 ++ b2) true
  = let '(td1, s1) := decode td b1 true in
    let '(td2, s2) := decode td1 b2 true in
    (td2, s1 ++ s2).
Proof.
  unfold decode. rewrite process_queue_app.
  destruct (process_queue _ b1) as [d1 o1].
  destruct (serialize _ o1) as [bom1 x1] eqn:Hser1.
  cbn [do_not_flush decoder BOM_seen].
  destruct (process_queue d1 b2) as [d2 o2].
  rewrite serialize_app, Hser1.
  destruct (serialize bom1 o2) as [bom2 x2].
  by rewrite to_string_app.
Qed.

End Decoder.

(** ** Properties of the updaters *)

Lemma Array_map_from_total {A B : Type} (f : A -> nat -> B) k (l : list A) :
  Array_map_from (fun a i => Normal (f a i)) k l
  = Normal (imap (fun i a => f a (k + i)%nat) l).
Proof.
  revert k. induction l as [|a l IH]; intros k; [reflexivity|].
  cbn [Array_map_from imap]. rewrite IH, Nat.add_0_r. do 2 f_equal.
  apply imap_ext. intros i x _. cbn. f_equal. lia.
Qed.

(** The per-chunk updater rewrites the entry at [loaderIndex + 1] and no
    other; it never throws. *)
Lemma streaming_updater_alter li acc prev :
  BottomSection.streaming_updater li acc prev
  = Normal (alter (fun c => with_text c acc) (li + 1)%nat prev).
Proof.
  unfold BottomSection.streaming_updater, Array_map.
  rewrite (Array_map_from_total
             (fun chat index => if Nat.eqb index (li + 1)
                                then with_text chat acc else chat)).
  f_equal. apply list_eq. intros i.
  rewrite list_lookup_imap, list_lookup_alter. cbn.
  case_decide as Hi.
  - subst i. destruct (prev !! (li + 1)%nat); cbn; [|reflexivity].
    by rewrite Nat.eqb_refl.
  - destruct (prev !! i); cbn; [|reflexivity].
    destruct (Nat.eqb_spec i (li + 1)); congruence.
Qed.

Lemma Main_streaming_updater :
  Main.streaming_updater = BottomSection.streaming_updater.
Proof. reflexivity. Qed.

Lemma Main_error_updater :
  Main.error_updater = BottomSection.error_updater.
Proof. reflexivity. Qed.

Lemma Main_read_loop : Main.read_loop = BottomSection.read_loop.
Proof. reflexivity. Qed.

(** The updater of the [catch] block throws as soon as the history has
    an entry, and returns the empty history otherwise. *)
Lemma error_updater_cases msg prev :
  BottomSection.error_updater msg prev
  = match prev with
    | [] => Normal []
    | _ :: _ => Abrupt (ReferenceError "loaderIndex")
    end.
Proof. by destruct prev. Qed.

Lemma alter_bot_entry (f : Chat -> Chat) (h : list Chat) u b :
  alter f (length h + 1)%nat (h ++ [u; b]) = h ++ [u; f b].
Proof.
  apply list_eq. intros i. rewrite list_lookup_alter.
  case_decide as Hi.
  - subst i. rewrite !lookup_app_r by lia.
    by replace (length h + 1 - length h)%nat with 1%nat by lia.
  - destruct (decide (i < length h)%nat) as [Hlt|Hge].
    + by rewrite !lookup_app_l by lia.
    + rewrite !lookup_app_r by lia.
      destruct (i - length h)%nat as [|[|m]] eqn:E; [done|lia|done].
Qed.

(** ** Properties of [run] and [trace] *)

Lemma run_app l1 l2 s : run (l1 ++ l2) s = run l2 (run l1 s).
Proof. apply foldl_app. Qed.

Lemma run_cons e l s : run (e :: l) s = run l (apply_effect s e).
Proof. reflexivity. Qed.

Lemma trace_app l1 l2 s :
  trace (l1 ++ l2) s = trace l1 s ++ trace l2 (run l1 s).
Proof.
  revert s. induction l1 as [|e l1 IH]; intros s; [reflexivity|].
  cbn [app trace]. by rewrite IH.
Qed.

Lemma length_trace l s : length (trace l s) = length l.
Proof.
  revert s. induction l as [|e l IH]; intros s; cbn; [done|by rewrite IH].
Qed.

(** A store of the trace is the store after a non-empty prefix. *)
Lemma trace_lookup l s k s' :
  trace l s !! k = Some s' -> s' = run (take (S k) l) s.
Proof.
  revert s k. induction l as [|e l IH]; intros s k; [done|].
  destruct k as [|k]; cbn.
  - intros [= <-]. by rewrite take_0.
  - intros H. by apply IH in H.
Qed.

Lemma same_context_refl s : same_context s s.
Proof. by repeat split. Qed.

(** ** Properties of the read loop *)

Lemma bind_emit {B : Type} e (k : Async B) :
  (emit e ;; k) = (e :: fst k, snd k).
Proof. by destruct k. Qed.

Lemma read_loop_nil li td acc e :
  BottomSection.read_loop li td acc [] e
  = ([Read], match e with
             | EndOfStream => Normal acc
             | ReadRejects => Abrupt (TypeError "network error")
             end).
Proof. by destruct e. Qed.

Lemma read_loop_cons li td acc value rest e :
  BottomSection.read_loop li td acc (value :: rest) e
  = let '(td', chunk) := TextDecoder.decode td value true in
    let '(effects, r) :=
      BottomSection.read_loop li td' (acc ++ chunk) rest e in
    (Read :: SetChatHistory
               (BottomSection.streaming_updater li (acc ++ chunk)) :: effects,
     r).
Proof.
  cbn [BottomSection.read_loop].
  destruct (TextDecoder.decode td value true) as [td' chunk].
  rewrite !bind_emit. cbn [fst snd].
  by destruct (BottomSection.read_loop li td' (acc ++ chunk) rest e).
Qed.

(** How the loop completes: at end-of-stream with the fragments of all
    chunks appended in arrival order, on a failed read with the
    exception. *)
Lemma read_loop_completion li td acc bytes e :
  snd (BottomSection.read_loop li td acc bytes e)
  = match e with
    | EndOfStream => Normal (acc ++ concat (decoded_chunks td bytes))
    | ReadRejects => Abrupt (TypeError "network error")
    end.
Proof.
  revert td acc. induction bytes as [|value rest IH]; intros td acc.
  - rewrite read_loop_nil. cbn. destruct e; by rewrite ?app_nil_r.
  - rewrite read_loop_cons. cbn [decoded_chunks].
    destruct (TextDecoder.decode td value true) as [td' chunk].
    specialize (IH td' (acc ++ chunk)).
    destruct (BottomSection.read_loop li td' (acc ++ chunk) rest e) as [fx r].
    cbn [snd] in *. rewrite IH. destruct e; [|done].
    cbn [concat]. by rewrite app_assoc.
Qed.

Lemma read_loop_steps li td acc bytes e :
  Forall (streaming_step li)
         (fst (BottomSection.read_loop li td acc bytes e)).
Proof.
  revert td acc. induction bytes as [|value rest IH]; intros td acc.
  - rewrite read_loop_nil. repeat constructor.
  - rewrite read_loop_cons.
    destruct (TextDecoder.decode td value true) as [td' chunk].
    specialize (IH td' (acc ++ chunk)).
    destruct (BottomSection.read_loop li td' (acc ++ chunk) rest e) as [fx r].
    cbn [fst] in *. constructor; [by left|].
    constructor; [right; eauto|done].
Qed.

(** ** The calls in closed form *)

Lemma call_effects ep s net :
  accepted ep s = true ->
  call ep s net
  = (opening ep (question_of ep s)
       ++ looping (length (chatHistory s)) net
       ++ closing ep (question_of ep s) net ++ [SetLoadings false],
     Normal tt).
Proof.
  intros Hacc.
  destruct ep as [|query]; cbn [call question_of accepted] in *.
  - unfold BottomSection.handleSend.
    destruct (input s) as [|c q] eqn:Hq; [discriminate|]. cbn [falsy].
    destruct net as [|[[] [[bytes e]|]]]; try reflexivity.
    unfold looping, closing, thrown, delivered, opening.
    pose proof (read_loop_completion (length (chatHistory s))
                  TextDecoder.new [] bytes e) as Hr.
    cbn -[BottomSection.read_loop decoded_chunks TextDecoder.new] in *.
    destruct (BottomSection.read_loop _ _ _ bytes e) as [fx r].
    cbn [fst snd] in *. subst r. destruct e; cbn.
    all: rewrite <- ?app_assoc; reflexivity.
  - unfold Main.handleQueryClick.
    destruct net as [|[[] [[bytes e]|]]]; try reflexivity.
    unfold looping, closing, thrown, delivered, opening.
    change Main.read_loop with BottomSection.read_loop.
    pose proof (read_loop_completion (length (chatHistory s))
                  TextDecoder.new [] bytes e) as Hr.
    cbn -[BottomSection.read_loop decoded_chunks TextDecoder.new] in *.
    destruct (BottomSection.read_loop _ _ _ bytes e) as [fx r].
    cbn [fst snd] in *. subst r. destruct e; cbn.
    all: rewrite <- ?app_assoc; reflexivity.
Qed.

Lemma handleSend_empty h net :
  BottomSection.handleSend h [] net = ([PreventDefault], Normal tt).
Proof. reflexivity. Qed.

Lemma looping_steps li net : Forall (streaming_step li) (looping li net).
Proof.
  destruct net as [|[[] [[bytes e]|]]]; cbn; try constructor.
  apply read_loop_steps.
Qed.

Lemma streaming_step_after_append li e :
  streaming_step li e -> after_append li e.
Proof. intros [->|[acc ->]]; cbn; eauto. Qed.

Lemma closing_after_append li ep q net :
  Forall (after_append li) (closing ep q net).
Proof.
  unfold closing.
  destruct (thrown net), ep;
    repeat first [apply Forall_nil_2 | apply Forall_cons_2]; cbn; try done.
  all: right; by exists errorMessage.
Qed.

Lemma call_tail_after_append li ep q net :
  Forall (after_append li)
         (looping li net ++ closing ep q net ++ [SetLoadings false]).
Proof.
  rewrite !Forall_app. split_and!.
  - eapply Forall_impl; [apply looping_steps|].
    apply streaming_step_after_append.
  - apply closing_after_append.
  - repeat constructor.
Qed.


(** ** What the effects after the append do to a store *)

(** On a history ending with the pair of this call, an effect issued
    after the append leaves the pair in place and only ever rewrites the
    text and the loading flag of its bot entry. *)
Lemma after_append_history e s h u b :
  after_append (length h) e ->
  chatHistory s = h ++ [u; b] ->
  exists b', chatHistory (apply_effect s e) = h ++ [u; b']
             /\ type b' = type b.
Proof.
  intros He Hh. destruct e; cbn in *; eauto.
  destruct He as [[acc ->]|[msg ->]].
  - rewrite streaming_updater_alter, Hh, alter_bot_entry. cbn. eauto.
  - rewrite error_updater_cases, Hh. destruct h; cbn; eauto.
Qed.

Lemma after_append_run l s h u b :
  Forall (after_append (length h)) l ->
  chatHistory s = h ++ [u; b] ->
  exists b', chatHistory (run l s) = h ++ [u; b'] /\ type b' = type b.
Proof.
  revert s b. induction l as [|e l IH]; intros s b Hl Hh; [by eauto|].
  inversion_clear Hl as [|? ? He Hl'].
  destruct (after_append_history e s h u b He Hh) as (b1 & Hh1 & Ht1).
  destruct (IH _ _ Hl' Hh1) as (b2 & Hh2 & Ht2).
  exists b2. rewrite run_cons. split; [done|congruence].
Qed.

Lemma after_append_trace l s h u b s' :
  Forall (after_append (length h)) l ->
  chatHistory s = h ++ [u; b] ->
  s' ∈ trace l s ->
  exists b', chatHistory s' = h ++ [u; b'] /\ type b' = type b.
Proof.
  intros Hl Hh [k Hk]%list_elem_of_lookup.
  apply trace_lookup in Hk as ->.
  apply after_append_run; [|done].
  by apply Forall_take.
Qed.


Lemma opening_history ep s :
  chatHistory (run (opening ep (question_of ep s)) s)
  = chatHistory s ++ [mkChat user (question_of ep s) None;
                      mkChat bot [] (Some true)].
Proof. by destruct ep. Qed.

(** C5: an accepted submission with question [q] appends, by a single
    [setChatHistory] call, the user entry with text [q] followed by the
    bot entry with empty text that shows the loader; the history then has
    two entries more, and every store of the call either still has the
    old history or has both entries. *)
Theorem C5_pair_appended_in_one_step ep s net :
  accepted ep s = true ->
  let q := question_of ep s in
  let h := chatHistory s in
  let effects := fst (call ep s net) in
  let pair := [mkChat user q None; mkChat bot [] (Some true)] in
  length (chatHistory (run effects s)) = (length h + 2)%nat
  /\ (exists k sk,
        trace effects s !! k = Some sk /\ chatHistory sk = h ++ pair
        /\ forall j sj, (j < k)%nat ->
             trace effects s !! j = Some sj -> chatHistory sj = h)
  /\ (forall s', s' ∈ trace effects s ->
        chatHistory s' = h
        \/ exists b, type b = bot
                     /\ chatHistory s' = h ++ [mkChat user q None; b])
  /\ shows_loader (mkChat user q None) = false
  /\ shows_loader (mkChat bot [] (Some true)) = true.
Proof.
  intros Hacc q h effects pair. subst effects.
  rewrite (call_effects ep s net Hacc). cbn [fst].
  fold q. set (tail := looping _ _ ++ _).
  assert (Htail : Forall (after_append (length h)) tail)
    by apply call_tail_after_append.
  pose proof (opening_history ep s) as Hopen. fold q h in Hopen.
  split_and!; [| | |done|done].
  - rewrite run_app.
    destruct (after_append_run tail _ h _ _ Htail Hopen) as (b' & -> & _).
    rewrite length_app. cbn. lia.
  - rewrite trace_app. destruct ep as [|query].
    + exists 4%nat. eexists. split_and!; [reflexivity|done|].
      intros [|[|[|[|j]]]] sj Hj; [..|lia]; by intros [= <-].
    + exists 3%nat. eexists. split_and!; [reflexivity|done|].
      intros [|[|[|j]]] sj Hj; [..|lia]; by intros [= <-].
  - intros s'. rewrite trace_app, elem_of_app. intros [Hs'|Hs'].
    + destruct ep as [|query]; cbn in Hs';
        repeat (apply elem_of_cons in Hs' as [->|Hs']);
        try (by left);
        try (right; eexists; split; [|reflexivity]; reflexivity);
        by apply elem_of_nil in Hs'.
    + right.
      destruct (after_append_trace tail _ h _ _ s' Htail Hopen Hs')
        as (b' & -> & Hb').
      by exists b'.
Qed.

Lemma C5_pair_appended_in_one_step_witness :
  accepted ViaForm deadline_store = true
  /\ length (chatHistory
               (run (fst (call ViaForm deadline_store deadline_net))
                    deadline_store)) = 2%nat.
Proof.
  split; [reflexivity|].
  exact (proj1 (C5_pair_appended_in_one_step
                  ViaForm deadline_store deadline_net eq_refl)).
Defined.

(** ** The loading flag *)





(** ** Submissions and the guard *)

Lemma segments_opening ep q tail :
  segments (opening ep q ++ tail) = opening ep q :: segments tail.
Proof. by destruct ep. Qed.

Lemma first_segment_accepted ep s net :
  accepted ep s = true ->
  first_segment (call ep s net) = opening ep (question_of ep s).
Proof.
  intros Hacc. unfold first_segment.
  rewrite (call_effects ep s net Hacc). cbn [fst].
  by rewrite segments_opening.
Qed.

(** The form's submit event runs the first segment of [handleSend]. *)
Lemma step_Submit_store a net :
  store (step a (Submit net))
  = run (first_segment (call ViaForm (store a) net)) (store a).
Proof.
  cbn [step call]. unfold start, first_segment.
  destruct (segments _) as [|seg [|seg' rest]]; reflexivity.
Qed.

Lemma concat_segments l : concat (segments l) = l.
Proof.
  induction l as [|e l IH]; [done|]. cbn [segments].
  destruct (is_await e); [cbn; by rewrite IH|].
  destruct (segments l) as [|seg segs]; cbn in *; by rewrite <- IH.
Qed.

Lemma resume_all rest s :
  rest <> [] ->
  exec (replicate (length rest) (Resume 0)) (mkApp s [rest])
  = mkApp (run (concat rest) s) [].
Proof.
  revert s. induction rest as [|seg rest IH]; intros s Hne; [done|].
  destruct rest as [|seg' rest].
  - cbn. by rewrite app_nil_r.
  - change (exec (replicate (length (seg :: seg' :: rest)) (Resume 0))
                 (mkApp s [seg :: seg' :: rest]))
      with (exec (replicate (length (seg' :: rest)) (Resume 0))
                 (mkApp (run seg s) [seg' :: rest])).
    rewrite IH by done. cbn [concat]. by rewrite !run_app.
Qed.

(** A call with nothing running in between: the events that start it and
    resume it to its end take the store through [run]. *)
Lemma uninterrupted_submit s net :
  let effects := fst (call ViaForm s net) in
  exec (Submit net :: replicate (length (segments effects) - 1) (Resume 0))
       (mkApp s [])
  = mkApp (run effects s) [].
Proof.
  intros effects.
  pose proof (concat_segments effects) as Hcat.
  change (exec (Submit net :: ?l) ?a) with (exec l (step a (Submit net))).
  cbn [step store]. unfold start.
  fold (call ViaForm s net). fold effects.
  destruct (segments effects) as [|seg [|seg' rest]] eqn:Hsegs.
  - cbn in *. by rewrite <- Hcat.
  - cbn in *. rewrite app_nil_r in Hcat. by rewrite Hcat.
  - cbn [suspended app].
    replace (length (seg :: seg' :: rest) - 1)%nat
      with (length (seg' :: rest)) by (cbn; lia).
    rewrite resume_all by done. rewrite <- Hcat. cbn [concat].
    by rewrite !run_app.
Qed.

(** C1 (as amended): the handlers never read [loadings].  A submit made
    while it is true is treated like any other: when it gets past the
    handler's own guard (a non-empty input for [handleSend], always for
    [handleQueryClick]) the event appends the user/bot pair to the
    history and issues the request; the only submit that changes nothing
    is [handleSend] with the empty input.  What a call does depends on
    the store through the history and the input only. *)
Theorem C1_loadings_does_not_gate_submission ep s net :
  loadings s = true ->
  let q := question_of ep s in
  let now := first_segment (call ep s net) in
  (if accepted ep s
   then chatHistory (run now s)
        = chatHistory s ++ [mkChat user q None; mkChat bot [] (Some true)]
        /\ Fetch (chat_request q) ∈ now
   else call ep s net = ([PreventDefault], Normal tt)
        /\ run (fst (call ep s net)) s = s)
  /\ (forall s', chatHistory s' = chatHistory s -> input s' = input s ->
        call ep s' net = call ep s net)
  /\ (forall a, store (step a (Submit net))
                = run (first_segment (call ViaForm (store a) net)) (store a)).
Proof.
  intros _ q now. split_and!; [| |intros a; apply step_Submit_store].
  2:{ intros s' Hh Hi. destruct ep; cbn [call]; by rewrite Hh, ?Hi. }
  destruct (accepted ep s) eqn:Hacc.
  - subst now. rewrite (first_segment_accepted ep s net Hacc). fold q. split.
    + apply opening_history.
    + destruct ep; cbn; repeat constructor.
  - destruct ep as [|query]; [|discriminate]. unfold accepted in Hacc.
    destruct (input s) eqn:Hin; [|discriminate].
    cbn [call]. by rewrite Hin, handleSend_empty.
Qed.

Lemma C1_loadings_does_not_gate_submission_witness :
  let s := mkStore [mkChat user (js "Q1") None; mkChat bot [] (Some true)]
                   [] (js "Q1") (js "Q2") [] true true [] in
  loadings s = true
  /\ length (chatHistory (run (first_segment (call ViaForm s FetchRejects)) s))
     = 4%nat.
Proof.
  split; [reflexivity|].
  exact (f_equal length
           (proj1 (proj1 (C1_loadings_does_not_gate_submission ViaForm
              (mkStore [mkChat user (js "Q1") None; mkChat bot [] (Some true)]
                       [] (js "Q1") (js "Q2") [] true true [])
              FetchRejects eq_refl)))).
Defined.

(** C1 (as stated) fails: after "Q1" is submitted [loadings] is true and
    its request is out; submitting "Q2" then is not rejected, the history
    goes from two entries to four. *)
Lemma C1_submit_while_loading_counterexample :
  let a := exec [ Typing (js "Q1"); Submit (stream_of [] EndOfStream);
                  Typing (js "Q2") ] initialApp in
  let a' := step a (Submit (stream_of [] EndOfStream)) in
  loadings (store a) = true
  /\ length (suspended a) = 1%nat
  /\ length (chatHistory (store a)) = 2%nat
  /\ length (chatHistory (store a')) = 4%nat
  /\ length (suspended a') = 2%nat.
Proof. cbn. by split_and!. Qed.

(** ** The guard of [handleSend] *)

(** C7 (as amended): for the empty input, [handleSend] returns at once:
    it only calls [event.preventDefault()], completes normally, issues no
    request and leaves the whole store, [loadings] included, and the
    suspended calls as they were. *)
Theorem C7_empty_input_is_ignored a net :
  input (store a) = [] ->
  call ViaForm (store a) net = ([PreventDefault], Normal tt)
  /\ run (fst (call ViaForm (store a) net)) (store a) = store a
  /\ step a (Submit net) = a.
Proof.
  intros Hin. cbn [call step]. unfold start. rewrite Hin, handleSend_empty.
  split_and!; [done|done|by destruct a].
Qed.

Lemma C7_empty_input_is_ignored_witness :
  input (store initialApp) = []
  /\ step initialApp (Submit deadline_net) = initialApp.
Proof.
  split; [reflexivity|].
  exact (proj2 (proj2 (C7_empty_input_is_ignored
                         initialApp deadline_net eq_refl))).
Defined.

(** C7 (as stated) fails for a blank input: a single space is a truthy
    string, the call gets past the guard, appends the two entries, sets
    [loadings] and issues the request. *)
Lemma C7_blank_input_counterexample :
  let s := mkStore [] [] [] (js " ") [] false false [] in
  let now := first_segment (call ViaForm s FetchRejects) in
  chatHistory (run now s)
    = [mkChat user (js " ") None; mkChat bot [] (Some true)]
  /\ loadings (run now s) = true
  /\ Fetch (chat_request (js " ")) ∈ now.
Proof. cbn. split_and!; [done|done|repeat constructor]. Qed.

(** ** The two entry points compared *)

Lemma invisible_shared e s :
  visible e = false -> shared (apply_effect s e) = shared s.
Proof. by destruct e. Qed.

Lemma shared_apply e s1 s2 :
  shared s1 = shared s2 ->
  shared (apply_effect s1 e) = shared (apply_effect s2 e).
Proof.
  unfold shared. intros [= Hh Hp Hr Hs Hl Hu].
  destruct e; cbn; try congruence.
  rewrite Hh. destruct (updater (chatHistory s2)); cbn; congruence.
Qed.

Lemma shared_run l s1 s2 :
  shared s1 = shared s2 -> shared (run l s1) = shared (run l s2).
Proof.
  revert s1 s2. induction l as [|e l IH]; intros s1 s2 H; [done|].
  rewrite !run_cons. by apply IH, shared_apply.
Qed.

Lemma shared_run_visible l s :
  shared (run l s) = shared (run (List.filter visible l) s).
Proof.
  revert s. induction l as [|e l IH]; intros s; [done|].
  cbn [List.filter]. destruct (visible e) eqn:He.
  - rewrite !run_cons. apply IH.
  - rewrite run_cons, <- IH. by apply shared_run, invisible_shared.
Qed.

(** C8 (as amended): for a non-empty question, and whatever the network
    does, [handleSend] and [handleQueryClick] started from the same store
    end with the same chat history and the same previous prompts (and the
    same flags). *)
Theorem C8_entry_points_agree_on_nonempty s net :
  input s <> [] ->
  let sF := run (fst (call ViaForm s net)) s in
  let sQ := run (fst (call (ViaQueryCard (input s)) s net)) s in
  chatHistory sF = chatHistory sQ
  /\ previousPrompt sF = previousPrompt sQ
  /\ loadings sF = loadings sQ
  /\ uncaught sF = uncaught sQ.
Proof.
  intros Hin sF sQ.
  assert (HaF : accepted ViaForm s = true)
    by (cbn; by destruct (input s)).
  assert (H : shared sF = shared sQ).
  { subst sF sQ.
    rewrite (call_effects ViaForm s net HaF).
    rewrite (call_effects (ViaQueryCard (input s)) s net eq_refl).
    cbn [fst question_of].
    rewrite shared_run_visible, (shared_run_visible (opening _ _ ++ _)).
    f_equal. rewrite !List.filter_app. f_equal. f_equal.
    unfold closing. by destruct (thrown net). }
  unfold shared in H. by injection H as -> -> _ _ -> ->.
Qed.

Lemma C8_entry_points_agree_on_nonempty_witness :
  input ping_store <> []
  /\ chatHistory (run (fst (call ViaForm ping_store status_500)) ping_store)
     = chatHistory
         (run (fst (call (ViaQueryCard (input ping_store))
                         ping_store status_500)) ping_store).
Proof.
  split; [discriminate|].
  refine (proj1 (C8_entry_points_agree_on_nonempty
                   ping_store status_500 _)).
  discriminate.
Defined.

(** C8 (as stated) fails for the empty question: [handleSend] returns at
    its guard and the history stays empty, [handleQueryClick] has no
    guard and appends the two entries. *)
Lemma C8_empty_question_counterexample :
  chatHistory (run (fst (BottomSection.handleSend [] [] FetchRejects))
                   initialStore) = []
  /\ chatHistory (run (fst (Main.handleQueryClick [] [] FetchRejects))
                      initialStore)
     = [mkChat user [] None; mkChat bot [] (Some true)].
Proof. by split. Qed.

(** ** The [catch] block *)

Lemma error_updater_store msg s :
  chatHistory s <> [] ->
  apply_effect s (SetChatHistory (BottomSection.error_updater msg))
  = mkStore (chatHistory s) (previousPrompt s) (recentPrompt s) (input s)
            (response s) (showResult s) (loadings s)
            (uncaught s ++ [ReferenceError "loaderIndex"]).
Proof.
  intros Hne. cbn. rewrite error_updater_cases. by destruct (chatHistory s).
Qed.

(** The scenario of the specification: "Ping" is submitted and the
    server answers with status 500.  The [catch] block runs, but its
    history update throws [ReferenceError] on [loaderIndex]: the bot
    entry keeps its empty text and its loader, it never gets the error
    message.  The previous prompts are unchanged. *)
Example ping_scenario :
  let sF := run (fst (call ViaForm ping_store status_500)) ping_store in
  let sQ := run (fst (call (ViaQueryCard (js "Ping"))
                           ping_store status_500)) ping_store in
  chatHistory sF = [mkChat user (js "Ping") None; mkChat bot [] (Some true)]
  /\ chatHistory sQ = chatHistory sF
  /\ text_at (chatHistory sF) 1 <> errorMessage
  /\ uncaught sF = [ReferenceError "loaderIndex"]
  /\ uncaught sQ = [ReferenceError "loaderIndex"]
  /\ previousPrompt sF = [] /\ previousPrompt sQ = [].
Proof. cbn. by split_and!. Qed.

(** The same after a failure in mid-stream: the partial text stays. *)
Example failure_in_mid_stream :
  let net := stream_of [list_byte_of_string "The dead"] ReadRejects in
  let sF := run (fst (call ViaForm ping_store net)) ping_store in
  chatHistory sF
    = [mkChat user (js "Ping") None; mkChat bot (js "The dead") (Some false)]
  /\ uncaught sF = [ReferenceError "loaderIndex"].
Proof. by split. Qed.

(** ** The stream, end to end *)

Lemma streaming_updater_store li acc s :
  apply_effect s (SetChatHistory (BottomSection.streaming_updater li acc))
  = mkStore (alter (fun c => with_text c acc) (li + 1)%nat (chatHistory s))
            (previousPrompt s) (recentPrompt s) (input s) (response s)
            (showResult s) (loadings s) (uncaught s).
Proof. cbn. by rewrite streaming_updater_alter. Qed.

(** The loop, run on a history that ends with the pair of the call: the
    bot entry ends with the accumulated text, everything else is as it
    was. *)
Lemma run_read_loop bytes td acc e s h u b :
  chatHistory s = h ++ [u; b] ->
  text b = acc ->
  let s' := run (fst (BottomSection.read_loop (length h) td acc bytes e)) s in
  exists b',
    chatHistory s' = h ++ [u; b']
    /\ type b' = type b
    /\ text b' = acc ++ concat (decoded_chunks td bytes)
    /\ same_context s s'.
Proof.
  revert td acc s b. induction bytes as [|value rest IH];
    intros td acc s b Hh Hb.
  - rewrite read_loop_nil. cbn. exists b.
    rewrite app_nil_r. split_and!; try done; apply same_context_refl.
  - cbn zeta. rewrite read_loop_cons. cbn [decoded_chunks].
    destruct (TextDecoder.decode td value true) as [td' chunk].
    destruct (BottomSection.read_loop (length h) td' (acc ++ chunk) rest e)
      as [fx r] eqn:Hloop.
    cbn [fst]. rewrite !run_cons. cbn [apply_effect].
    fold (apply_effect s (SetChatHistory
            (BottomSection.streaming_updater (length h) (acc ++ chunk)))).
    rewrite streaming_updater_store, Hh, alter_bot_entry.
    set (s1 := mkStore _ _ _ _ _ _ _ _).
    destruct (IH td' (acc ++ chunk) s1 (with_text b (acc ++ chunk))
                eq_refl eq_refl) as (b' & Hh' & Ht' & Hx' & Hc').
    rewrite Hloop in Hh', Hc'. cbn [fst] in Hh', Hc'.
    exists b'. split_and!; try done.
    cbn [concat]. by rewrite app_assoc.
Qed.

Lemma decoded_chunks_concat td bytes :
  concat (decoded_chunks td bytes)
  = snd (TextDecoder.decode td (concat bytes) true).
Proof.
  revert td. induction bytes as [|value rest IH]; intros td.
  - cbn. unfold TextDecoder.decode. cbn.
    by destruct (TextDecoder.do_not_flush td), (TextDecoder.BOM_seen td).
  - cbn [concat decoded_chunks]. rewrite decode_stream_app.
    destruct (TextDecoder.decode td value true) as [td1 s1].
    cbn [concat]. rewrite IH.
    by destruct (TextDecoder.decode td1 (concat rest) true).
Qed.

Lemma opening_same_prompts ep q s :
  previousPrompt (run (opening ep q) s) = previousPrompt s.
Proof. by destruct ep. Qed.

(** C4: when the stream of an accepted submission ends normally, the bot
    entry of the call holds the fragments decoded from the chunks,
    concatenated in arrival order, which is the streaming decoding of all
    the bytes whatever the chunk boundaries; the question is appended at
    the end of the previous prompts, and nothing else is. *)
Theorem C4_successful_stream ep s bytes :
  accepted ep s = true ->
  let q := question_of ep s in
  let s' := run (fst (call ep s (stream_of bytes EndOfStream))) s in
  (exists b,
     chatHistory s' = chatHistory s ++ [mkChat user q None; b]
     /\ type b = bot
     /\ text b = concat (decoded_chunks TextDecoder.new bytes))
  /\ concat (decoded_chunks TextDecoder.new bytes)
     = snd (TextDecoder.decode TextDecoder.new (concat bytes) true)
  /\ previousPrompt s' = previousPrompt s ++ [q].
Proof.
  intros Hacc q s'. subst s'.
  rewrite (call_effects ep s _ Hacc). cbn [fst]. fold q.
  rewrite !run_app. set (s1 := run (opening ep q) s).
  assert (Hh1 : chatHistory s1
                = chatHistory s ++ [mkChat user q None;
                                    mkChat bot [] (Some true)])
    by apply opening_history.
  assert (Hp1 : previousPrompt s1 = previousPrompt s)
    by apply opening_same_prompts.
  unfold looping, stream_of. cbn [chunks ending].
  destruct (run_read_loop bytes TextDecoder.new [] EndOfStream s1 _ _ _
              Hh1 eq_refl) as (b' & Hh2 & Ht2 & Hx2 & Hc2).
  set (s2 := run (fst (BottomSection.read_loop _ _ _ _ _)) s1) in *.
  destruct Hc2 as (Hp2 & _).
  split_and!.
  - exists b'. split_and!; [|done|done].
    destruct ep; cbn; by rewrite Hh2.
  - apply decoded_chunks_concat.
  - destruct ep; cbn; by rewrite Hp2, Hp1.
Qed.

Lemma C4_successful_stream_witness :
  accepted ViaForm deadline_store = true
  /\ previousPrompt
       (run (fst (call ViaForm deadline_store deadline_net)) deadline_store)
     = [] ++ [js "What is the deadline?"].
Proof.
  split; [reflexivity|].
  exact (proj2 (proj2 (C4_successful_stream ViaForm deadline_store
           [ list_byte_of_string "The dead";
             list_byte_of_string "line is Fri";
             list_byte_of_string "day." ] eq_refl))).
Defined.

(** The scenario of the specification. *)
Example deadline_scenario :
  let s' := run (fst (call ViaForm deadline_store deadline_net))
                deadline_store in
  chatHistory s'
    = [ mkChat user (js "What is the deadline?") None;
        mkChat bot (js "The deadline is Friday.") (Some false) ]
  /\ previousPrompt s' = [js "What is the deadline?"]
  /\ loadings s' = false.
Proof. by split_and!. Qed.

(** A stream that ends before its first chunk leaves the loader on. *)
Example empty_stream_keeps_loader :
  chatHistory (run (fst (call ViaForm ping_store (stream_of [] EndOfStream)))
                   ping_store)
  = [mkChat user (js "Ping") None; mkChat bot [] (Some true)].
Proof. reflexivity. Qed.

(** C2, as the code behaves: when an accepted submission fails
    (rejected fetch, non-2xx status, missing body, failed read), the
    history update of the [catch] block throws [ReferenceError] on
    [loaderIndex], so the bot entry is left with the text decoded so far
    (empty before the first chunk) instead of the error message, and the
    application does not stay mounted; the previous prompts are as
    before. *)
Theorem C2_failed_call_keeps_streamed_text ep s net error :
  accepted ep s = true ->
  thrown net = Some error ->
  let q := question_of ep s in
  let s' := run (fst (call ep s net)) s in
  (exists b,
     chatHistory s' = chatHistory s ++ [mkChat user q None; b]
     /\ type b = bot
     /\ text b = concat (decoded_chunks TextDecoder.new (delivered net)))
  /\ uncaught s' = uncaught s ++ [ReferenceError "loaderIndex"]
  /\ ~ mounted s'
  /\ previousPrompt s' = previousPrompt s.
Proof.
  intros Hacc Hthrown q s'. subst s'. unfold mounted.
  rewrite (call_effects ep s _ Hacc). cbn [fst]. fold q.
  rewrite !run_app. set (s1 := run (opening ep q) s).
  assert (Hh1 : chatHistory s1
                = chatHistory s ++ [mkChat user q None;
                                    mkChat bot [] (Some true)])
    by apply opening_history.
  assert (Hp1 : previousPrompt s1 = previousPrompt s)
    by apply opening_same_prompts.
  assert (Hu1 : uncaught s1 = uncaught s) by (by destruct ep).
  assert (exists b', chatHistory (run (looping (length (chatHistory s)) net) s1)
                     = chatHistory s ++ [mkChat user q None; b']
                     /\ type b' = bot
                     /\ text b' = concat (decoded_chunks TextDecoder.new
                                            (delivered net))
                     /\ same_context s1
                          (run (looping (length (chatHistory s)) net) s1))
    as (b' & Hh2 & Ht2 & Hx2 & Hc2).
  { destruct net as [|[[] [[bytes e]|]]]; cbn [looping delivered chunks ending].
    2:{ destruct (run_read_loop bytes TextDecoder.new [] e s1 _ _ _
                    Hh1 eq_refl) as (b' & ? & ? & ? & ?).
        by exists b'. }
    all: exists (mkChat bot [] (Some true)); split_and!; try done;
      apply same_context_refl. }
  set (s2 := run (looping _ _) s1) in *.
  destruct Hc2 as (Hp2 & _ & _ & _ & _ & _ & Hu2).
  assert (Hne : chatHistory s2 <> []).
  { rewrite Hh2. by destruct (chatHistory s). }
  unfold closing. rewrite Hthrown.
  destruct ep; cbn [run foldl];
    change Main.error_updater with BottomSection.error_updater;
    rewrite error_updater_store by done; cbn.
  all: split_and!; [by exists b'|congruence| |congruence].
  all: intros Hnil; apply (f_equal length) in Hnil;
    rewrite length_app in Hnil; cbn in Hnil; lia.
Qed.

Lemma C2_failed_call_keeps_streamed_text_witness :
  accepted ViaForm ping_store = true
  /\ thrown status_500
     = Some (Error "Failed to fetch response from the server.")
  /\ uncaught (run (fst (call ViaForm ping_store status_500)) ping_store)
     = [] ++ [ReferenceError "loaderIndex"].
Proof.
  split; [reflexivity|]. split; [reflexivity|].
  exact (proj1 (proj2 (C2_failed_call_keeps_streamed_text
                         ViaForm ping_store status_500 _ eq_refl eq_refl))).
Defined.

(** ** Encoding and decoding *)

Lemma decoder_eqb_eq d1 d2 : Utf8.decoder_eqb d1 d2 = true -> d1 = d2.
Proof.
  destruct d1, d2. unfold Utf8.decoder_eqb. cbn.
  rewrite !andb_true_iff, !Z.eqb_eq, !Nat.eqb_eq.
  intros [[[[-> ->] ->] ->] ->]. reflexivity.
Qed.

Lemma all_from_sound bits base :
  Utf8.all_from bits base = true ->
  forall x, base <= x < base + 2 ^ Z.of_nat bits -> Utf8.roundtrips x = true.
Proof.
  revert base. induction bits as [|b IH]; intros base Hall x Hx.
  - cbn in *. by replace x with base by lia.
  - cbn [Utf8.all_from] in Hall. apply andb_true_iff in Hall as [H1 H2].
    rewrite Nat2Z.inj_succ, Z.pow_succ_r in Hx by lia.
    destruct (Z_lt_ge_dec x (base + 2 ^ Z.of_nat b)).
    + apply (IH base); [done|lia].
    + apply (IH (base + 2 ^ Z.of_nat b)); [done|lia].
Qed.

Lemma all_scalars_roundtrip : Utf8.all_from 21 0 = true.
Proof. vm_compute. reflexivity. Qed.

(** Every scalar value is decoded back from its encoding. *)
Lemma decode_encode cp :
  Utf8.is_scalar cp = true ->
  Utf8.process_queue Utf8.initial (Utf8.encode cp) = (Utf8.initial, [cp]).
Proof.
  intros Hs.
  assert (Hr : Utf8.roundtrips cp = true).
  { apply (all_from_sound 21 0 all_scalars_roundtrip).
    unfold Utf8.is_scalar, Utf8.in_range in Hs. lia. }
  unfold Utf8.roundtrips in Hr. rewrite Hs in Hr.
  destruct (Utf8.process_queue _ _) as [d [|c [|c' out]]]; try discriminate.
  apply andb_true_iff in Hr as [->%Z.eqb_eq ->%decoder_eqb_eq]. reflexivity.
Qed.

Lemma decode_encode_all cps :
  Forall (fun cp => Utf8.is_scalar cp = true) cps ->
  Utf8.process_queue Utf8.initial (flat_map Utf8.encode cps)
  = (Utf8.initial, cps).
Proof.
  induction 1 as [|cp cps Hcp _ IH]; [reflexivity|].
  cbn [flat_map]. by rewrite process_queue_app, decode_encode, IH.
Qed.

(** ** Characters split across chunks *)

(** What a final, non-streaming call adds to the streaming output: one
    U+FFFD when a sequence is still open, nothing otherwise. *)
Lemma decode_flush_adds_replacement td bytes :
  snd (TextDecoder.decode td bytes false)
  = snd (TextDecoder.decode td bytes true)
    ++ match Utf8.bytes_needed
               (TextDecoder.decoder (fst (TextDecoder.decode td bytes true)))
       with
       | O => []
       | S _ => [Utf8.REPLACEMENT]
       end.
Proof.
  unfold TextDecoder.decode.
  destruct (Utf8.process_queue _ bytes) as [d1 o1].
  unfold Utf8.at_end_of_queue.
  destruct (Utf8.bytes_needed d1) eqn:Hn.
  - destruct (TextDecoder.serialize _ o1) as [bom x]. cbn.
    by rewrite Hn, app_nil_r.
  - rewrite serialize_app.
    destruct (TextDecoder.serialize _ o1) as [bom x]. cbn [fst snd].
    cbn [TextDecoder.decoder]. rewrite Hn.
    assert (Hx : TextDecoder.serialize bom [Utf8.REPLACEMENT]
                 = (true, [Utf8.REPLACEMENT])) by (by destruct bom).
    rewrite Hx. cbn [snd]. by rewrite to_string_app.
Qed.

(** C3 (as amended): the decoder carries an incomplete sequence over to
    the next call, so decoding two chunks one after the other gives the
    text, and leaves the decoder in the state, of decoding their
    concatenation: a character split across chunks is neither dropped
    nor corrupted, and the text accumulated by either read loop over a
    whole stream is the streaming decoding of all its bytes.  Neither
    loop makes a final non-streaming call: compared with a decoding that
    does, the accumulated text lacks exactly the U+FFFD that stands for
    a sequence still open at the end of the stream.  In particular, when
    the chunks cut the UTF-8 encoding of a text anywhere, the accumulated
    text is that text (less a leading byte-order mark). *)
Theorem C3_split_characters_reassembled_without_final_flush :
  (forall td b1 b2,
     TextDecoder.decode td (b1 ++ b2) true
     = let '(td1, s1) := TextDecoder.decode td b1 true in
       let '(td2, s2) := TextDecoder.decode td1 b2 true in
       (td2, s1 ++ s2))
  /\ (forall li bytes,
        snd (BottomSection.read_loop li TextDecoder.new [] bytes EndOfStream)
        = Normal (snd (TextDecoder.decode TextDecoder.new (concat bytes) true))
        /\ snd (Main.read_loop li TextDecoder.new [] bytes EndOfStream)
           = Normal (snd (TextDecoder.decode TextDecoder.new
                            (concat bytes) true)))
  /\ (forall bytes,
        snd (TextDecoder.decode TextDecoder.new (concat bytes) false)
        = concat (decoded_chunks TextDecoder.new bytes)
          ++ match Utf8.bytes_needed
                     (TextDecoder.decoder
                        (fst (TextDecoder.decode TextDecoder.new
                                (concat bytes) true)))
             with
             | O => []
             | S _ => [Utf8.REPLACEMENT]
             end)
  /\ (forall cps bytes,
        Forall (fun cp => Utf8.is_scalar cp = true) cps ->
        concat bytes = flat_map Utf8.encode cps ->
        concat (decoded_chunks TextDecoder.new bytes)
        = TextDecoder.to_string (snd (TextDecoder.serialize false cps))).
Proof.
  split_and!.
  - apply decode_stream_app.
  - intros li bytes. rewrite Main_read_loop, read_loop_completion.
    by rewrite decoded_chunks_concat.
  - intros bytes.
    by rewrite decode_flush_adds_replacement, decoded_chunks_concat.
  - intros cps bytes Hcps Hbytes.
    rewrite decoded_chunks_concat, Hbytes. unfold TextDecoder.decode.
    cbn [TextDecoder.do_not_flush TextDecoder.new].
    rewrite (decode_encode_all cps Hcps).
    by destruct (TextDecoder.serialize false cps).
Qed.

Lemma C3_split_characters_reassembled_without_final_flush_witness :
  let cps := [0x41; 0xE9; 0x20AC; 0x1F600] in
  let bytes := [[x41; xc3]; [xa9; xe2; x82]; [xac; xf0]; [x9f; x98; x80]] in
  Forall (fun cp => Utf8.is_scalar cp = true) cps
  /\ concat bytes = flat_map Utf8.encode cps
  /\ concat (decoded_chunks TextDecoder.new bytes)
     = [0x41; 0xE9; 0x20AC; 0xD83D; 0xDE00].
Proof.
  assert (Hcps : Forall (fun cp => Utf8.is_scalar cp = true)
                        [0x41; 0xE9; 0x20AC; 0x1F600])
    by (repeat constructor).
  split; [exact Hcps|]. split; [reflexivity|].
  exact (proj2 (proj2 (proj2
           C3_split_characters_reassembled_without_final_flush))
           [0x41; 0xE9; 0x20AC; 0x1F600]
           [[x41; xc3]; [xa9; xe2; x82]; [xac; xf0]; [x9f; x98; x80]]
           Hcps eq_refl).
Defined.

(** C3 (as stated) fails at the end of the stream: for the single chunk
    41 C3 (an "A" and the first byte of a two-byte character) the loop
    ends with the text "A" and the bot entry shows "A"; the open sequence
    is dropped, where a final decoding gives "A" followed by U+FFFD. *)
Lemma C3_open_sequence_dropped_counterexample :
  let bytes := [[x41; xc3]] in
  snd (BottomSection.read_loop 0 TextDecoder.new [] bytes EndOfStream)
    = Normal [0x41]
  /\ snd (Main.read_loop 0 TextDecoder.new [] bytes EndOfStream)
     = Normal [0x41]
  /\ text_at (chatHistory
                (run (fst (call ViaForm ping_store
                                (stream_of bytes EndOfStream))) ping_store)) 1
     = [0x41]
  /\ snd (TextDecoder.decode TextDecoder.new (concat bytes) false)
     = [0x41; 0xFFFD].
Proof. by split_and!. Qed.

Example decode_ascii :
  snd (TextDecoder.decode TextDecoder.new [x54; x68; x65] true) = js "The".
Proof. reflexivity. Qed.

(** U+00E9 (C3 A9) split after its first byte. *)
Example decode_split_two_bytes :
  decoded_chunks TextDecoder.new [[x41; xc3]; [xa9; x42]]
  = [[0x41]; [0xE9; 0x42]].
Proof. reflexivity. Qed.

(** U+1F600 (F0 9F 98 80) spread over three chunks: a surrogate pair. *)
Example decode_split_four_bytes :
  decoded_chunks TextDecoder.new [[xf0]; [x9f; x98]; [x80]]
  = [[]; []; [0xD83D; 0xDE00]].
Proof. reflexivity. Qed.

(** A leading byte-order mark is dropped, an encoded surrogate is three
    malformed bytes. *)
Example decode_bom_and_surrogate :
  snd (TextDecoder.decode TextDecoder.new
         [xef; xbb; xbf; x41; xed; xa0; x80] true)
  = [0x41; 0xFFFD; 0xFFFD; 0xFFFD].
Proof. reflexivity. Qed.

(** ** Per-chunk updates of one entry *)

Lemma streaming_update_idempotent li t s :
  let u := SetChatHistory (BottomSection.streaming_updater li t) in
  apply_effect (apply_effect s u) u = apply_effect s u.
Proof.
  cbn zeta. rewrite !streaming_updater_store. cbn. f_equal.
  rewrite list_alter_alter_eq. by apply list_alter_ext.
Qed.

Lemma streaming_update_entry li t s c :
  chatHistory s !! (li + 1)%nat = Some c ->
  chatHistory
    (apply_effect s (SetChatHistory (BottomSection.streaming_updater li t)))
    !! (li + 1)%nat
  = Some (with_text c t).
Proof.
  intros Hc. rewrite streaming_updater_store. cbn.
  rewrite list_lookup_alter. case_decide; [|done]. by rewrite Hc.
Qed.

Lemma streaming_updates_entry li texts s c k t :
  chatHistory s !! (li + 1)%nat = Some c ->
  texts !! k = Some t ->
  exists sk,
    trace (map (fun t => SetChatHistory
                           (BottomSection.streaming_updater li t)) texts) s
      !! k = Some sk
    /\ chatHistory sk !! (li + 1)%nat = Some (with_text c t).
Proof.
  revert s c k. induction texts as [|t0 texts IH]; intros s c k Hc Hk; [done|].
  destruct k as [|k]; cbn [map trace].
  - injection Hk as ->. eexists. split; [reflexivity|].
    by apply streaming_update_entry.
  - apply (streaming_update_entry li t0) in Hc.
    destruct (IH _ _ k Hc Hk) as (sk & Hsk & Hentry).
    exists sk. split; [done|]. by rewrite Hentry.
Qed.

(** C9: repeated per-chunk updates of the entry at [loaderIndex + 1]
    with texts that each extend the one before (starting from the text
    the entry has): after every update the entry holds the text just
    passed, with its loader off, so the text shown is never shorter than
    at any earlier moment; and making the same update twice is making it
    once. *)
Theorem C9_streaming_updates_never_shorten li texts s c :
  chatHistory s !! (li + 1)%nat = Some c ->
  non_decreasing (text c :: texts) ->
  let update t := SetChatHistory (BottomSection.streaming_updater li t) in
  let stores := trace (map update texts) s in
  (forall k t, texts !! k = Some t ->
     exists sk, stores !! k = Some sk
                /\ chatHistory sk !! (li + 1)%nat
                   = Some (mkChat (type c) t (Some false))
                /\ text_at (chatHistory sk) (li + 1) = t)
  /\ (forall j k sj sk, (j <= k)%nat ->
        stores !! j = Some sj -> stores !! k = Some sk ->
        (length (text_at (chatHistory sj) (li + 1))
         <= length (text_at (chatHistory sk) (li + 1)))%nat)
  /\ (forall k sk, stores !! k = Some sk ->
        (length (text c)
         <= length (text_at (chatHistory sk) (li + 1)))%nat)
  /\ (forall t s0,
        apply_effect (apply_effect s0 (update t)) (update t)
        = apply_effect s0 (update t)).
Proof.
  intros Hc Hmono update stores.
  assert (Hentry : forall k t, texts !! k = Some t ->
            exists sk, stores !! k = Some sk
                       /\ chatHistory sk !! (li + 1)%nat
                          = Some (mkChat (type c) t (Some false))
                       /\ text_at (chatHistory sk) (li + 1) = t).
  { intros k t Ht.
    destruct (streaming_updates_entry li texts s c k t Hc Ht)
      as (sk & Hsk & Hat).
    exists sk. split_and!; [done|done|]. unfold text_at. by rewrite Hat. }
  assert (Hat : forall k sk, stores !! k = Some sk ->
            exists t, texts !! k = Some t
                      /\ text_at (chatHistory sk) (li + 1) = t).
  { intros k sk Hk.
    assert (Hlen : (k < length texts)%nat).
    { apply lookup_lt_Some in Hk. subst stores.
      by rewrite length_trace, length_map in Hk. }
    destruct (lookup_lt_is_Some_2 _ _ Hlen) as [t Ht].
    destruct (Hentry k t Ht) as (sk' & Hk' & _ & Htext).
    exists t. split; [done|].
    rewrite Hk' in Hk. by injection Hk as <-. }
  split_and!.
  - exact Hentry.
  - intros j k sj sk Hjk Hj Hk.
    destruct (Hat _ _ Hj) as (tj & Htj & ->).
    destruct (Hat _ _ Hk) as (tk & Htk & ->).
    apply prefix_length.
    apply (Hmono (S j) (S k)); [lia|done|done].
  - intros k sk Hk.
    destruct (Hat _ _ Hk) as (tk & Htk & ->).
    apply prefix_length.
    apply (Hmono 0%nat (S k)); [lia|done|done].
  - intros t s0. apply streaming_update_idempotent.
Qed.

Lemma C9_streaming_updates_never_shorten_witness :
  let s := mkStore [mkChat user (js "Q") None; mkChat bot [] (Some true)]
                   [] [] [] [] true true [] in
  let texts := [js "The dead"; js "The deadline is Fri"] in
  chatHistory s !! (0 + 1)%nat = Some (mkChat bot [] (Some true))
  /\ non_decreasing ([] :: texts)
  /\ forall t s0,
       apply_effect
         (apply_effect s0
            (SetChatHistory (BottomSection.streaming_updater 0 t)))
         (SetChatHistory (BottomSection.streaming_updater 0 t))
       = apply_effect s0
           (SetChatHistory (BottomSection.streaming_updater 0 t)).
Proof.
  assert (Hmono : non_decreasing
                    ([] :: [js "The dead"; js "The deadline is Fri"])).
  { intros [|[|[|j]]] [|[|[|k]]] tj tk Hjk Hj Hk;
      try lia; try discriminate;
      injection Hj as <-; injection Hk as <-;
      first [ reflexivity | by apply prefix_nil
            | by exists (js "line is Fri") ]. }
  split; [reflexivity|]. split; [exact Hmono|].
  exact (proj2 (proj2 (proj2
    (C9_streaming_updates_never_shorten 0
       [js "The dead"; js "The deadline is Fri"]
       (mkStore [mkChat user (js "Q") None; mkChat bot [] (Some true)]
                [] [] [] [] true true [])
       (mkChat bot [] (Some true)) eq_refl Hmono)))).
Defined.

(** ** Frame of the history updates *)

Lemma streaming_update_frame li t s0 :
  let s1 := apply_effect s0
              (SetChatHistory (BottomSection.streaming_updater li t)) in
  length (chatHistory s1) = length (chatHistory s0)
  /\ (forall i, i <> (li + 1)%nat ->
        chatHistory s1 !! i = chatHistory s0 !! i)
  /\ (forall i, type <$> chatHistory s1 !! i = type <$> chatHistory s0 !! i).
Proof.
  cbn zeta. rewrite streaming_updater_store. cbn. split_and!.
  - apply length_alter.
  - intros i Hi. by apply list_lookup_alter_ne.
  - intros i. rewrite list_lookup_alter. case_decide; [subst i|done].
    by destruct (chatHistory s0 !! (li + 1)%nat).
Qed.

Lemma error_update_frame msg s0 :
  chatHistory (apply_effect s0
                 (SetChatHistory (BottomSection.error_updater msg)))
  = chatHistory s0.
Proof. cbn. rewrite error_updater_cases. by destruct (chatHistory s0). Qed.

(** C10: of the history updates a call makes, every one but the append
    of the pair (so every per-chunk update and the update of the [catch]
    block) leaves the length of the history, every entry at an index
    other than [chatHistory.length + 1] (the length when the call
    started) and the type of every entry as they were, on whatever
    history it is applied to. *)
Theorem C10_updates_rewrite_only_the_target ep s net u :
  SetChatHistory u ∈ fst (call ep s net) ->
  u = append_pair (question_of ep s)
  \/ forall s0,
       let s1 := apply_effect s0 (SetChatHistory u) in
       length (chatHistory s1) = length (chatHistory s0)
       /\ (forall i, i <> (length (chatHistory s) + 1)%nat ->
             chatHistory s1 !! i = chatHistory s0 !! i)
       /\ (forall i,
             type <$> chatHistory s1 !! i = type <$> chatHistory s0 !! i).
Proof.
  destruct (accepted ep s) eqn:Hacc.
  - rewrite (call_effects ep s net Hacc). cbn [fst].
    rewrite elem_of_app. intros [Hin|Hin].
    + left. destruct ep; cbn in Hin;
        repeat (apply elem_of_cons in Hin as [Hin|Hin]; try discriminate);
        try (by apply elem_of_nil in Hin); by injection Hin.
    + right. intros s0.
      pose proof (call_tail_after_append (length (chatHistory s)) ep
                    (question_of ep s) net) as Htail.
      rewrite Forall_forall in Htail. specialize (Htail _ Hin).
      destruct Htail as [[acc ->]|[msg ->]].
      * apply streaming_update_frame.
      * cbn zeta. by rewrite error_update_frame.
  - destruct ep as [|query]; [|discriminate]. unfold accepted in Hacc.
    destruct (input s) eqn:Hq; [|discriminate].
    cbn [call]. rewrite Hq, handleSend_empty. cbn [fst].
    intros Hin. apply elem_of_cons in Hin as [Hin|Hin]; [discriminate|].
    by apply elem_of_nil in Hin.
Qed.

Lemma C10_updates_rewrite_only_the_target_witness :
  let u := BottomSection.streaming_updater 0 (js "Hi") in
  let net := stream_of [list_byte_of_string "Hi"] EndOfStream in
  SetChatHistory u ∈ fst (call ViaForm ping_store net)
  /\ (u = append_pair (question_of ViaForm ping_store)
      \/ forall s0,
           let s1 := apply_effect s0 (SetChatHistory u) in
           length (chatHistory s1) = length (chatHistory s0)
           /\ (forall i, i <> (length (chatHistory ping_store) + 1)%nat ->
                 chatHistory s1 !! i = chatHistory s0 !! i)
           /\ (forall i, type <$> chatHistory s1 !! i
                         = type <$> chatHistory s0 !! i)).
Proof.
  assert (Hin : SetChatHistory (BottomSection.streaming_updater 0 (js "Hi"))
                ∈ fst (call ViaForm ping_store
                         (stream_of [list_byte_of_string "Hi"] EndOfStream))).
  { apply list_elem_of_lookup. by exists 8%nat. }
  split; [exact Hin|].
  exact (C10_updates_rewrite_only_the_target ViaForm ping_store _ _ Hin).
Defined.
(** ** Requests *)

Lemma looping_no_fetch li net :
  List.filter is_fetch (looping li net) = [].
Proof.
  pose proof (looping_steps li net) as H.
  induction H as [|e l He _ IH]; [done|].
  cbn [List.filter]. by destruct He as [->|[acc ->]].
Qed.

(** X1: a call that gets past the guard issues exactly one request, the
    POST to /chat with its question and the fixed provider "openai" and
    model "gpt-4o-mini", whatever the network then does (no retry); a
    call stopped at the guard issues none. *)
Theorem one_request_per_call ep s net :
  List.filter is_fetch (fst (call ep s net))
  = if accepted ep s then [Fetch (chat_request (question_of ep s))] else [].
Proof.
  destruct (accepted ep s) eqn:Hacc.
  - rewrite (call_effects ep s net Hacc). cbn [fst].
    rewrite !List.filter_app, looping_no_fetch.
    unfold closing. by destruct ep, (thrown net).
  - destruct ep as [|query]; [|discriminate]. unfold accepted in Hacc.
    destruct (input s) eqn:Hq; [|discriminate].
    cbn [call]. by rewrite Hq, handleSend_empty.
Qed.
(** ** The store at the end of a call *)

Lemma set_history_keeps u s :
  let s' := apply_effect s (SetChatHistory u) in
  previousPrompt s' = previousPrompt s /\ recentPrompt s' = recentPrompt s
  /\ input s' = input s /\ response s' = response s
  /\ showResult s' = showResult s /\ loadings s' = loadings s.
Proof. cbn. by destruct (u (chatHistory s)). Qed.

Lemma streaming_steps_context li l s :
  Forall (streaming_step li) l -> same_context s (run l s).
Proof.
  intros Hl. revert s. induction Hl as [|e l He _ IH]; intros s.
  - apply same_context_refl.
  - rewrite run_cons. specialize (IH (apply_effect s e)).
    destruct He as [->|[acc ->]]; [done|].
    rewrite streaming_updater_store in *. exact IH.
Qed.

(** The entry the loop leaves at [loaderIndex + 1]: untouched when no
    chunk came, else the accumulated text with the loader off. *)
Lemma run_read_loop_entry bytes td acc e s h u b :
  chatHistory s = h ++ [u; b] ->
  chatHistory (run (fst (BottomSection.read_loop (length h) td acc bytes e)) s)
  = h ++ [u; match bytes with
             | [] => b
             | _ :: _ => mkChat (type b)
                           (acc ++ concat (decoded_chunks td bytes))
                           (Some false)
             end].
Proof.
  revert td acc s b. induction bytes as [|value rest IH];
    intros td acc s b Hh.
  - by rewrite read_loop_nil.
  - rewrite read_loop_cons. cbn [decoded_chunks].
    destruct (TextDecoder.decode td value true) as [td' chunk].
    destruct (BottomSection.read_loop (length h) td' (acc ++ chunk) rest e)
      as [fx r] eqn:Hloop.
    cbn [fst]. rewrite !run_cons. cbn [apply_effect].
    fold (apply_effect s (SetChatHistory
            (BottomSection.streaming_updater (length h) (acc ++ chunk)))).
    rewrite streaming_updater_store, Hh, alter_bot_entry.
    set (s1 := mkStore _ _ _ _ _ _ _ _).
    specialize (IH td' (acc ++ chunk) s1 (with_text b (acc ++ chunk)) eq_refl).
    rewrite Hloop in IH. cbn [fst] in IH. rewrite IH. do 3 f_equal.
    destruct rest; cbn; by rewrite ?app_nil_r, ?app_assoc.
Qed.

Lemma closing_keeps_history ep q net s :
  chatHistory (run (closing ep q net ++ [SetLoadings false]) s)
  = chatHistory s.
Proof.
  unfold closing. destruct (thrown net), ep; cbn [app]; rewrite ?run_cons;
    cbn [run foldl apply_effect chatHistory]; try done.
  all: change Main.error_updater with BottomSection.error_updater;
    rewrite error_updater_cases; by destruct (chatHistory s).
Qed.

Lemma call_history ep s net :
  accepted ep s = true ->
  chatHistory (run (fst (call ep s net)) s)
  = chatHistory s
      ++ [ mkChat user (question_of ep s) None;
           match delivered net with
           | [] => mkChat bot [] (Some true)
           | _ :: _ =>
               mkChat bot
                 (concat (decoded_chunks TextDecoder.new (delivered net)))
                 (Some false)
           end ].
Proof.
  intros Hacc. set (q := question_of ep s).
  rewrite (call_effects ep s net Hacc). cbn [fst]. fold q.
  rewrite run_app, run_app, closing_keeps_history.
  pose proof (opening_history ep s) as Hopen. fold q in Hopen.
  set (s1 := run (opening ep q) s) in *.
  destruct net as [|[[] [[bytes e]|]]]; cbn [looping delivered chunks ending];
    try exact Hopen.
  rewrite (run_read_loop_entry bytes _ _ e s1 _ _ _ Hopen).
  by destruct bytes.
Qed.

(** X2: at the end of an accepted call, whatever the network did, the
    history is the old one followed by the user entry with the question
    and the bot entry; the bot entry still has its empty text and its
    loader when no chunk was delivered (also after a failure, and after
    a stream that ended at once), and otherwise holds the text decoded
    from the delivered chunks with the loader off.  After a call whose
    stream ended normally the result pane ends with the loader in the
    first case, with the answer in the second. *)
Theorem history_after_call ep s net :
  accepted ep s = true ->
  let q := question_of ep s in
  let answer := concat (decoded_chunks TextDecoder.new (delivered net)) in
  chatHistory (run (fst (call ep s net)) s)
  = chatHistory s
      ++ [ mkChat user q None;
           match delivered net with
           | [] => mkChat bot [] (Some true)
           | _ :: _ => mkChat bot answer (Some false)
           end ]
  /\ (thrown net = None ->
      last (result (chatHistory (run (fst (call ep s net)) s)))
      = Some (match delivered net with
              | [] => ResponseLoader
              | _ :: _ => BotMessage answer
              end)).
Proof.
  intros Hacc q answer.
  pose proof (call_history ep s net Hacc) as Hh. fold q answer in Hh.
  split; [exact Hh|]. intros _.
  rewrite Hh. unfold result. rewrite map_app, last_app. cbn [map last].
  by destruct (delivered net).
Qed.

Lemma history_after_call_witness :
  accepted ViaForm deadline_store = true
  /\ chatHistory (run (fst (call ViaForm deadline_store deadline_net))
                      deadline_store)
     = [ mkChat user (js "What is the deadline?") None;
         mkChat bot (js "The deadline is Friday.") (Some false) ].
Proof.
  split; [reflexivity|].
  exact (proj1 (history_after_call ViaForm deadline_store deadline_net
                  eq_refl)).
Defined.
Lemma opening_context ep s :
  let s1 := run (opening ep (question_of ep s)) s in
  previousPrompt s1 = previousPrompt s
  /\ recentPrompt s1 = question_of ep s
  /\ input s1 = match ep with ViaForm => [] | ViaQueryCard _ => input s end
  /\ response s1 = response s
  /\ showResult s1 = true /\ loadings s1 = true.
Proof. by destruct ep. Qed.

Lemma call_context ep s net :
  accepted ep s = true ->
  let q := question_of ep s in
  let s' := run (fst (call ep s net)) s in
  recentPrompt s' = q
  /\ showResult s' = true
  /\ input s' = match ep with ViaForm => [] | ViaQueryCard _ => input s end
  /\ match ep with
     | ViaForm =>
         thrown net = None ->
         response s' = concat (decoded_chunks TextDecoder.new (delivered net))
     | ViaQueryCard _ => response s' = response s
     end
  /\ previousPrompt s'
     = previousPrompt s ++ match thrown net with
                           | None => [q]
                           | Some _ => []
                           end.
Proof.
  intros Hacc q s'. subst s'.
  rewrite (call_effects ep s net Hacc). cbn [fst]. fold q.
  rewrite run_app, run_app.
  destruct (opening_context ep s) as (Hp1 & Hr1 & Hi1 & Hres1 & Hs1 & _).
  fold q in Hp1, Hr1, Hi1, Hres1, Hs1.
  set (s1 := run (opening ep q) s) in *.
  destruct (streaming_steps_context _ _ s1
              (looping_steps (length (chatHistory s)) net))
    as (Hp2 & Hr2 & Hi2 & Hres2 & Hs2 & _).
  set (s2 := run (looping _ _) s1) in *.
  unfold closing.
  destruct (thrown net) as [err|], ep as [|query];
    cbn [app]; rewrite ?run_cons; cbn [run foldl].
  all: change Main.error_updater with BottomSection.error_updater.
  1,2: cbn [apply_effect];
       destruct (BottomSection.error_updater errorMessage _).
  all: subst q; cbn [question_of] in *.
  all: cbn; rewrite ?app_nil_r; split_and!;
    first [congruence | intros ?; congruence].
Qed.

(** X3: at the end of an accepted call the recent prompt is the
    question and the result pane is on; [handleSend] has cleared the
    input and, when the stream ended normally, has set the response to
    the whole answer; [handleQueryClick] leaves input and response as
    they were. *)
Theorem context_after_call ep s net :
  accepted ep s = true ->
  let q := question_of ep s in
  let s' := run (fst (call ep s net)) s in
  recentPrompt s' = q
  /\ showResult s' = true
  /\ input s' = match ep with ViaForm => [] | ViaQueryCard _ => input s end
  /\ match ep with
     | ViaForm =>
         thrown net = None ->
         response s' = concat (decoded_chunks TextDecoder.new (delivered net))
     | ViaQueryCard _ => response s' = response s
     end.
Proof.
  intros Hacc q s'.
  destruct (call_context ep s net Hacc) as (H1 & H2 & H3 & H4 & _).
  by split_and!.
Qed.

Lemma context_after_call_witness :
  accepted ViaForm deadline_store = true
  /\ response (run (fst (call ViaForm deadline_store deadline_net))
                   deadline_store)
     = js "The deadline is Friday.".
Proof.
  split; [reflexivity|].
  exact (proj2 (proj2 (proj2 (context_after_call ViaForm deadline_store
                                deadline_net eq_refl))) eq_refl).
Defined.

(** ** The sidebar *)

Lemma length_js_dots : length (js "...") = 3%nat.
Proof. reflexivity. Qed.

(** X4: the label of a recent prompt in the sidebar starts with the
    first 20 code units of the prompt and is at most 23 long; its length
    is that of the prompt up to 15 and the cut length plus 3 beyond; it
    is the whole prompt followed by "..." exactly for prompts of 16 to
    20 code units, where the dots are added although nothing is cut. *)
Theorem recent_entry_shape item :
  take 20 item `prefix_of` Sidebar.recent_entry item
  /\ length (Sidebar.recent_entry item)
     = (if (length item <=? 15)%nat then length item
        else Nat.min (length item) 20 + 3)%nat
  /\ (length (Sidebar.recent_entry item) <= 23)%nat
  /\ (Sidebar.recent_entry item = item ++ js "..."
      <-> (15 < length item <= 20)%nat).
Proof.
  unfold Sidebar.recent_entry.
  destruct (Nat.ltb_spec 15 (length item)) as [Hlong|Hshort].
  - assert (Hlen : length (take 20 item ++ js "...")
                   = (Nat.min (length item) 20 + 3)%nat).
    { rewrite length_app, length_take, length_js_dots. lia. }
    destruct (Nat.leb_spec (length item) 15); [lia|].
    split_and!; [by eexists|done|lia|].
    split.
    + intros Heq. apply (f_equal length) in Heq.
      rewrite Hlen, length_app, length_js_dots in Heq. lia.
    + intros [_ Hle]. by rewrite take_ge by lia.
  - destruct (Nat.leb_spec (length item) 15); [|lia].
    split_and!; [|done|lia|].
    + rewrite take_ge by lia. done.
    + split; [|lia]. intros Heq. apply (f_equal length) in Heq.
      rewrite length_app, length_js_dots in Heq. lia.
Qed.

(** X5: in the earlier sidebar the label starts with the first 15 code
    units of the prompt and always ends with "..."; it is the whole
    prompt followed by the dots exactly when the prompt has at most 15
    code units. *)
Theorem early_recent_entry_shape item :
  take 15 item `prefix_of` SidebarEarly.recent_entry item
  /\ length (SidebarEarly.recent_entry item)
     = (Nat.min (length item) 15 + 3)%nat
  /\ (SidebarEarly.recent_entry item = item ++ js "..."
      <-> (length item <= 15)%nat).
Proof.
  unfold SidebarEarly.recent_entry.
  assert (Hlen : length (take 15 item ++ js "...")
                 = (Nat.min (length item) 15 + 3)%nat).
  { rewrite length_app, length_take, length_js_dots. lia. }
  split_and!; [by eexists|done|].
  split.
  - intros Heq. apply (f_equal length) in Heq.
    rewrite Hlen, length_app, length_js_dots in Heq. lia.
  - intros Hle. by rewrite take_ge by lia.
Qed.

(** X6: an accepted call that succeeds adds one entry to the sidebar's
    recents, the label of its question, after those already there (when
    the sidebar is extended); a call that fails adds none. *)
Theorem recents_after_call ep s net extended :
  accepted ep s = true ->
  Sidebar.recent extended (previousPrompt (run (fst (call ep s net)) s))
  = Sidebar.recent extended (previousPrompt s)
      ++ match thrown net with
         | None => if extended
                   then [Sidebar.recent_entry (question_of ep s)] else []
         | Some _ => []
         end.
Proof.
  intros Hacc.
  destruct (call_context ep s net Hacc) as (_ & _ & _ & _ & ->).
  unfold Sidebar.recent.
  destruct extended, (thrown net); by rewrite ?map_app, ?app_nil_r.
Qed.

Lemma recents_after_call_witness :
  accepted ViaForm deadline_store = true
  /\ Sidebar.recent true
       (previousPrompt (run (fst (call ViaForm deadline_store deadline_net))
                            deadline_store))
     = [js "What is the deadline..."].
Proof.
  split; [reflexivity|].
  exact (recents_after_call ViaForm deadline_store deadline_net true eq_refl).
Defined.

(** ** The configuration form *)

(** X7: saving the configuration form copies the three fields into the
    context, logs them, and empties the fields; saving again at once
    therefore replaces the provider and both keys by empty strings. *)
Theorem handleSubmit_clears_the_form p :
  let p1 := HomePageContainer.handleSubmit p in
  let p2 := HomePageContainer.handleSubmit p1 in
  HomePageContainer.configuration p1
  = HomePageContainer.mkConfiguration
      (Some (HomePageContainer.providerRef (HomePageContainer.form p)))
      (Some (HomePageContainer.providerKeyRef (HomePageContainer.form p)))
      (Some (HomePageContainer.unstructuredKeyRef (HomePageContainer.form p)))
  /\ HomePageContainer.form p1 = HomePageContainer.mkForm [] [] []
  /\ HomePageContainer.configuration p2
     = HomePageContainer.mkConfiguration (Some []) (Some []) (Some [])
  /\ HomePageContainer.console p2
     = HomePageContainer.console p
         ++ [ HomePageContainer.providerRef (HomePageContainer.form p);
              HomePageContainer.providerKeyRef (HomePageContainer.form p);
              HomePageContainer.unstructuredKeyRef (HomePageContainer.form p);
              []; []; [] ].
Proof. cbn. split_and!; try done. by rewrite <- app_assoc. Qed.

(** ** The text of the bot entry during a call *)

Lemma text_at_bot h u b : text_at (h ++ [u; b]) (length h + 1) = text b.
Proof.
  unfold text_at. rewrite lookup_app_r by lia.
  by replace (length h + 1 - length h)%nat with 1%nat by lia.
Qed.

Lemma text_at_beyond h i : (length h <= i)%nat -> text_at h i = [].
Proof. intros Hi. unfold text_at. by rewrite lookup_ge_None_2. Qed.

Lemma read_loop_grows li td acc bytes e :
  grows li acc (fst (BottomSection.read_loop li td acc bytes e)).
Proof.
  revert td acc. induction bytes as [|value rest IH]; intros td acc.
  - by rewrite read_loop_nil.
  - rewrite read_loop_cons.
    destruct (TextDecoder.decode td value true) as [td' chunk].
    specialize (IH td' (acc ++ chunk)).
    destruct (BottomSection.read_loop li td' (acc ++ chunk) rest e) as [fx r].
    cbn [fst grows] in *. left. exists (acc ++ chunk).
    split_and!; [done|by apply prefix_app_r|done].
Qed.

Lemma grows_app li t l1 l2 :
  grows li t l1 -> (forall t', grows li t' l2) -> grows li t (l1 ++ l2).
Proof.
  intros H1 H2. revert t H1. induction l1 as [|e l1 IH]; intros t H1; [done|].
  destruct e; cbn [app grows] in *; try by apply IH.
  destruct H1 as [(acc & -> & Hp & Hg)|(msg & -> & Hg)].
  - left. exists acc. split_and!; [done|done|by apply IH].
  - right. exists msg. split; [done|by apply IH].
Qed.

Lemma closing_grows li ep q net t :
  grows li t (closing ep q net ++ [SetLoadings false]).
Proof.
  unfold closing. destruct (thrown net), ep; cbn; try done.
  all: right; by exists errorMessage.
Qed.

Lemma grows_step li t e l s h u b :
  grows li t (e :: l) ->
  li = length h ->
  chatHistory s = h ++ [u; b] ->
  text b = t ->
  exists b1,
    chatHistory (apply_effect s e) = h ++ [u; b1]
    /\ t `prefix_of` text b1
    /\ grows li (text b1) l.
Proof.
  intros Hg -> Hh <-.
  destruct e; cbn [grows apply_effect] in *;
    try (exists b; by split_and!).
  destruct Hg as [(acc & -> & Hp & Hg)|(msg & -> & Hg)].
  - rewrite streaming_updater_alter, Hh, alter_bot_entry.
    exists (with_text b acc). by split_and!.
  - rewrite error_updater_cases, Hh.
    exists b. destruct h; by split_and!.
Qed.

Lemma grows_extends li t l s h u b s' :
  grows li t l ->
  li = length h ->
  chatHistory s = h ++ [u; b] ->
  text b = t ->
  s' ∈ trace l s ->
  t `prefix_of` text_at (chatHistory s') (li + 1).
Proof.
  revert t s b. induction l as [|e l IH]; intros t s b Hg Hli Hh Ht Hin.
  - by apply elem_of_nil in Hin.
  - destruct (grows_step li t e l s h u b Hg Hli Hh Ht)
      as (b1 & Hh1 & Hp1 & Hg1).
    cbn [trace] in Hin. apply elem_of_cons in Hin as [->|Hin].
    + subst li. by rewrite Hh1, text_at_bot.
    + etrans; [exact Hp1|]. by eapply IH.
Qed.

Lemma non_decreasing_cons t ts :
  (forall x, x ∈ ts -> t `prefix_of` x) ->
  non_decreasing ts -> non_decreasing (t :: ts).
Proof.
  intros Hall Hts [|j] [|k] tj tk Hjk Hj Hk; cbn in *.
  - by simplify_eq.
  - injection Hj as <-. apply Hall. by eapply list_elem_of_lookup_2.
  - lia.
  - eapply (Hts j k); [lia|done|done].
Qed.

Lemma grows_non_decreasing li t l s h u b :
  grows li t l ->
  li = length h ->
  chatHistory s = h ++ [u; b] ->
  text b = t ->
  non_decreasing
    (map (fun s' => text_at (chatHistory s') (li + 1)) (trace l s)).
Proof.
  revert t s b. induction l as [|e l IH]; intros t s b Hg Hli Hh Ht.
  - by intros [|?] [|?] ? ? ? ? ?.
  - destruct (grows_step li t e l s h u b Hg Hli Hh Ht)
      as (b1 & Hh1 & Hp1 & Hg1).
    cbn [trace map]. apply non_decreasing_cons.
    + intros x [s' [-> Hs']]%list_elem_of_fmap.
      replace (text_at (chatHistory (apply_effect s e)) (li + 1))
        with (text b1) by (subst li; by rewrite Hh1, text_at_bot).
      by eapply grows_extends.
    + by eapply IH.
Qed.

Lemma non_decreasing_after_empty l1 l2 :
  Forall (fun t : JsString => t = []) l1 ->
  non_decreasing l2 -> non_decreasing (l1 ++ l2).
Proof.
  intros H1 H2 j k tj tk Hjk Hj Hk. unfold JsString in *.
  destruct (decide (j < length l1)%nat) as [Hlt|Hge].
  - rewrite lookup_app_l in Hj by done.
    rewrite Forall_forall in H1.
    rewrite (H1 tj) by (by eapply list_elem_of_lookup_2).
    apply prefix_nil.
  - rewrite lookup_app_r in Hj by lia. rewrite lookup_app_r in Hk by lia.
    eapply (H2 (j - length l1)%nat (k - length l1)%nat); [lia|done|done].
Qed.

(** X8: throughout an accepted call, on the success path and on every
    failure path, the text at the call's bot index only grows: in the
    sequence of stores of the call each text is a prefix of every later
    one. *)
Theorem bot_text_only_grows ep s net :
  accepted ep s = true ->
  non_decreasing
    (map (fun s' => text_at (chatHistory s') (length (chatHistory s) + 1))
         (trace (fst (call ep s net)) s)).
Proof.
  intros Hacc. rewrite (call_effects ep s net Hacc). cbn [fst].
  set (q := question_of ep s). set (li := length (chatHistory s)).
  rewrite trace_app, map_app. apply non_decreasing_after_empty.
  - rewrite Forall_forall. intros t [s' [-> Hs']]%list_elem_of_fmap.
    assert (chatHistory s' = chatHistory s
            \/ chatHistory s' = chatHistory s ++ [mkChat user q None;
                                                  mkChat bot [] (Some true)])
      as [->| ->].
    { destruct ep; cbn in Hs';
        repeat (apply elem_of_cons in Hs' as [->|Hs']);
        try (by left); try (by right); by apply elem_of_nil in Hs'. }
    + apply text_at_beyond. lia.
    + apply text_at_bot.
  - eapply (grows_non_decreasing li []); [|done|apply opening_history|done].
    apply grows_app.
    + destruct net as [|[[] [[bytes e]|]]]; cbn [looping]; try done.
      apply read_loop_grows.
    + intros t'. apply closing_grows.
Qed.

Lemma bot_text_only_grows_witness :
  accepted ViaForm deadline_store = true
  /\ non_decreasing
       (map (fun s' => text_at (chatHistory s')
                               (length (chatHistory deadline_store) + 1))
            (trace (fst (call ViaForm deadline_store deadline_net))
                   deadline_store)).
Proof.
  split; [reflexivity|].
  exact (bot_text_only_grows ViaForm deadline_store deadline_net eq_refl).
Defined.

(** ** Plain ASCII answers *)

Lemma byte_val_nonneg b : 0 <= Utf8.byte_val b.
Proof. unfold Utf8.byte_val. lia. Qed.

Lemma process_queue_ascii d bytes :
  Utf8.bytes_needed d = 0%nat ->
  forallb is_ascii bytes = true ->
  Utf8.process_queue d bytes = (d, map Utf8.byte_val bytes).
Proof.
  intros Hd. induction bytes as [|b bytes IH]; intros Hall; [done|].
  cbn [forallb] in Hall. apply andb_true_iff in Hall as [Hb Hall].
  cbn [Utf8.process_queue map]. unfold Utf8.process_item, Utf8.handler.
  rewrite Hd. unfold is_ascii in Hb.
  pose proof (byte_val_nonneg b).
  replace (Utf8.in_range 0 127 (Utf8.byte_val b)) with true
    by (unfold Utf8.in_range; lia).
  by rewrite IH.
Qed.

Lemma to_string_ascii bytes :
  forallb is_ascii bytes = true ->
  TextDecoder.to_string (map Utf8.byte_val bytes) = map Utf8.byte_val bytes.
Proof.
  induction bytes as [|b bytes IH]; intros Hall; [done|].
  cbn [forallb] in Hall. apply andb_true_iff in Hall as [Hb Hall].
  unfold TextDecoder.to_string in *. cbn [map concat].
  rewrite IH by done. unfold TextDecoder.code_units, is_ascii in *.
  by replace (Utf8.byte_val b <? 65536) with true by lia.
Qed.

Lemma decode_ascii_bytes bytes :
  forallb is_ascii bytes = true ->
  snd (TextDecoder.decode TextDecoder.new bytes true)
  = map Utf8.byte_val bytes.
Proof.
  intros Hall. unfold TextDecoder.decode.
  cbn [TextDecoder.do_not_flush TextDecoder.new].
  rewrite process_queue_ascii by done.
  destruct bytes as [|b bytes]; [done|].
  cbn [map TextDecoder.serialize].
  assert (Hb : (Utf8.byte_val b =? 65279) = false).
  { cbn [forallb] in Hall. apply andb_true_iff in Hall as [Hb _].
    unfold is_ascii in Hb. lia. }
  rewrite Hb. cbn [snd]. by apply (to_string_ascii (b :: bytes)).
Qed.

(** X9: when every delivered byte is below 0x80, the text of the bot
    entry at the end of an accepted call is exactly the delivered bytes,
    one code unit per byte, whatever the chunk boundaries. *)
Theorem ascii_answer_is_the_bytes ep s net :
  accepted ep s = true ->
  forallb is_ascii (concat (delivered net)) = true ->
  text_at (chatHistory (run (fst (call ep s net)) s))
          (length (chatHistory s) + 1)
  = map Utf8.byte_val (concat (delivered net)).
Proof.
  intros Hacc Hall. rewrite (call_history ep s net Hacc), text_at_bot.
  destruct (delivered net) as [|value rest] eqn:Hd; [done|].
  cbn [text]. rewrite decoded_chunks_concat. by apply decode_ascii_bytes.
Qed.

Lemma ascii_answer_is_the_bytes_witness :
  accepted ViaForm deadline_store = true
  /\ forallb is_ascii (concat (delivered deadline_net)) = true
  /\ text_at (chatHistory
                (run (fst (call ViaForm deadline_store deadline_net))
                     deadline_store)) 1
     = js "The deadline is Friday.".
Proof.
  split; [reflexivity|]. split; [reflexivity|].
  exact (ascii_answer_is_the_bytes ViaForm deadline_store deadline_net
           eq_refl eq_refl).
Defined.

(** ** Invariants of the running application *)

Lemma resumable_tail li ep q net :
  Forall (resumable li)
         (looping li net ++ closing ep q net ++ [SetLoadings false]).
Proof.
  rewrite !Forall_app. split_and!.
  - eapply Forall_impl; [apply looping_steps|].
    intros e [->|[acc ->]]; cbn; eauto.
  - unfold closing.
    destruct (thrown net), ep;
      repeat first [apply Forall_nil_2 | apply Forall_cons_2]; cbn;
      try done; try (by eexists).
    all: right; by exists errorMessage.
  - by repeat constructor.
Qed.

Lemma Forall_segments (P : Effect -> Prop) l :
  Forall P l -> Forall (Forall P) (segments l).
Proof.
  induction 1 as [|e l He Hl IH]; [constructor|].
  cbn [segments]. destruct (is_await e).
  - constructor; [by constructor|done].
  - destruct (segments l) as [|seg segs].
    + by repeat constructor.
    + inversion_clear IH. constructor; [by constructor|done].
Qed.

Lemma segments_not_nil l : l <> [] -> segments l <> [].
Proof.
  destruct l as [|e l]; [done|]. intros _. cbn [segments].
  destruct (is_await e); [done|]. by destruct (segments l).
Qed.

Lemma tail_prompts li ep q net :
  (length (List.filter adds_prompt
             (looping li net ++ closing ep q net ++ [SetLoadings false]))
   <= 1)%nat.
Proof.
  rewrite !List.filter_app, !length_app.
  assert (Hloop : List.filter adds_prompt (looping li net) = []).
  { pose proof (looping_steps li net) as H.
    induction H as [|e l He _ IH]; [done|].
    cbn [List.filter]. by destruct He as [->|[acc ->]]. }
  rewrite Hloop. unfold closing. destruct (thrown net), ep; cbn; lia.
Qed.

Lemma pending_prompts_app t1 t2 :
  pending_prompts (t1 ++ t2) = (pending_prompts t1 + pending_prompts t2)%nat.
Proof.
  unfold pending_prompts.
  by rewrite !concat_app, List.filter_app, length_app.
Qed.

Lemma pending_prompts_cons seg task tasks :
  pending_prompts ((seg :: task) :: tasks)
  = (length (List.filter adds_prompt seg)
     + pending_prompts (task :: tasks))%nat.
Proof.
  unfold pending_prompts. cbn [concat app].
  by rewrite List.filter_app, length_app.
Qed.

Lemma pending_prompts_nil_task tasks :
  pending_prompts ([] :: tasks) = pending_prompts tasks.
Proof. reflexivity. Qed.

(** What one effect of a suspended call does to a store. *)
Lemma apply_resumable li e s :
  resumable li e ->
  let s' := apply_effect s e in
  length (chatHistory s') = length (chatHistory s)
  /\ (forall i, type <$> chatHistory s' !! i = type <$> chatHistory s !! i)
  /\ (forall i, i <> (li + 1)%nat ->
        chatHistory s' !! i = chatHistory s !! i)
  /\ (exists qs, previousPrompt s' = previousPrompt s ++ qs
                 /\ length qs = length (List.filter adds_prompt [e]))
  /\ showResult s' = showResult s
  /\ input s' = input s.
Proof.
  intros He. destruct e; cbn [resumable] in He; try done; cbn zeta.
  - subst b. cbn. split_and!; try done. exists []. by rewrite app_nil_r.
  - cbn. split_and!; try done. exists []. by rewrite app_nil_r.
  - destruct He as [[acc ->]|[msg ->]].
    + destruct (streaming_update_frame li acc s) as (Hl & Hf & Ht).
      rewrite streaming_updater_store in *. cbn in *.
      split_and!; try done. exists []. by rewrite app_nil_r.
    + pose proof (error_update_frame msg s) as Hh.
      destruct (set_history_keeps (BottomSection.error_updater msg) s)
        as (Hp & _ & Hi & _ & Hs & _).
      cbn zeta in *. rewrite Hh, Hp, Hi, Hs.
      split_and!; try done. exists []. by rewrite app_nil_r.
  - destruct He as [q ->]. cbn. split_and!; try done. by exists [q].
  - cbn. split_and!; try done. exists []. by rewrite app_nil_r.
  - cbn. split_and!; try done. exists []. by rewrite app_nil_r.
Qed.

Lemma run_resumable li seg s :
  Forall (resumable li) seg ->
  let s' := run seg s in
  length (chatHistory s') = length (chatHistory s)
  /\ (forall i, type <$> chatHistory s' !! i = type <$> chatHistory s !! i)
  /\ (forall i, i <> (li + 1)%nat ->
        chatHistory s' !! i = chatHistory s !! i)
  /\ (exists qs, previousPrompt s' = previousPrompt s ++ qs
                 /\ length qs = length (List.filter adds_prompt seg))
  /\ showResult s' = showResult s
  /\ input s' = input s.
Proof.
  intros Hseg. revert s. induction Hseg as [|e seg He _ IH]; intros s.
  - cbn. split_and!; try done. exists []. by rewrite app_nil_r.
  - cbn zeta. rewrite run_cons.
    destruct (apply_resumable li e s He)
      as (Hl1 & Ht1 & Hf1 & (qs1 & Hp1 & Hq1) & Hs1 & Hi1).
    destruct (IH (apply_effect s e))
      as (Hl2 & Ht2 & Hf2 & (qs2 & Hp2 & Hq2) & Hs2 & Hi2).
    split_and!.
    + congruence.
    + intros i. by rewrite Ht2, Ht1.
    + intros i Hi. by rewrite Hf2, Hf1.
    + exists (qs1 ++ qs2). split.
      * by rewrite Hp2, Hp1, app_assoc.
      * change (e :: seg) with ([e] ++ seg).
        rewrite List.filter_app, !length_app. congruence.
    + congruence.
    + congruence.
Qed.

Lemma paired_same_types h h' :
  paired h ->
  length h' = length h ->
  (forall i, type <$> h' !! i = type <$> h !! i) ->
  paired h'.
Proof.
  intros [Hev Hty] Hlen Htypes. split; [by rewrite Hlen|].
  intros i c' Hc'. specialize (Htypes i). rewrite Hc' in Htypes.
  destruct (h !! i) as [c|] eqn:Hc; [|done].
  injection Htypes as ->. by apply Hty.
Qed.

Lemma paired_append h q :
  paired h -> paired (h ++ [mkChat user q None; mkChat bot [] (Some true)]).
Proof.
  intros [Hev Hty]. split.
  - rewrite length_app. cbn [length].
    replace (length h + 2)%nat with (S (S (length h))) by lia. done.
  - intros i c Hc.
    destruct (decide (i < length h)%nat) as [Hlt|Hge].
    + rewrite lookup_app_l in Hc by done. by apply Hty.
    + rewrite lookup_app_r in Hc by lia.
      destruct (i - length h)%nat as [|[|m]] eqn:Hi; [| |done].
      * injection Hc as <-. replace i with (length h) by lia. by rewrite Hev.
      * injection Hc as <-. replace i with (S (length h)) by lia.
        rewrite Nat.even_succ, <- Nat.negb_even, Hev. done.
Qed.

Lemma consistent_initial : consistent initialApp.
Proof.
  unfold consistent. cbn. split_and!.
  - split; [done|]. by intros i c.
  - exists []. split_and!; constructor.
  - by left.
  - done.
Qed.

Lemma consistent_start ep a net :
  consistent a -> consistent (start (call ep (store a) net) a).
Proof.
  intros (Hpair & (targets & Htasks & Hnodup & Hbounds) & Hshow & Hcount).
  destruct a as [s tasks]. cbn [store suspended] in *.
  destruct (accepted ep s) eqn:Hacc.
  2:{ destruct ep as [|query]; [|discriminate]. unfold accepted in Hacc.
      destruct (input s) eqn:Hin; [|discriminate].
      unfold start. cbn [call store suspended]. rewrite Hin, handleSend_empty.
      cbn. unfold consistent. cbn [store suspended].
      split_and!; [done|by exists targets|done|done]. }
  unfold start. rewrite (call_effects ep s net Hacc). cbn [fst store suspended].
  rewrite segments_opening.
  set (q := question_of ep s). set (h := chatHistory s) in *.
  set (tail := looping (length h) net ++ closing ep q net ++ [SetLoadings false]).
  assert (Htail : segments tail <> []).
  { apply segments_not_nil. subst tail.
    intros Heq. apply (f_equal length) in Heq.
    rewrite !length_app in Heq. cbn in Heq. lia. }
  assert (Hs1 : chatHistory (run (opening ep q) s)
                = h ++ [mkChat user q None; mkChat bot [] (Some true)])
    by apply opening_history.
  assert (Hp1 : previousPrompt (run (opening ep q) s) = previousPrompt s)
    by apply opening_same_prompts.
  assert (Hsh1 : showResult (run (opening ep q) s) = true)
    by (by destruct ep).
  destruct (segments tail) as [|seg2 rest2] eqn:Hsegs; [done|].
  unfold consistent. cbn [store suspended]. rewrite Hs1, Hp1.
  split_and!.
  - by apply paired_append.
  - exists (targets ++ [length h]). split_and!.
    + apply Forall2_app; [done|]. constructor; [|constructor].
      split; [done|]. rewrite <- Hsegs.
      apply Forall_segments, resumable_tail.
    + apply NoDup_app. split_and!; [done| |apply NoDup_singleton].
      intros x Hx Hx'. apply list_elem_of_singleton in Hx'. subst x.
      rewrite Forall_forall in Hbounds. destruct (Hbounds _ Hx). lia.
    + apply Forall_app. split.
      * eapply Forall_impl; [exact Hbounds|].
        intros li [Hlt Hev]. split; [|done]. rewrite length_app. lia.
      * constructor; [|constructor]. split.
        -- rewrite length_app. cbn. lia.
        -- by destruct Hpair.
  - by right.
  - rewrite pending_prompts_app, length_app. cbn [length].
    assert (pending_prompts [seg2 :: rest2] <= 1)%nat.
    { unfold pending_prompts. cbn [concat]. rewrite app_nil_r, <- Hsegs.
      rewrite concat_segments. apply tail_prompts. }
    lia.
Qed.

Lemma consistent_resume a i :
  consistent a -> consistent (step a (Resume i)).
Proof.
  intros Ha. pose proof Ha as
    (Hpair & (targets & Htasks & Hnodup & Hbounds) & Hshow & Hcount).
  destruct a as [s tasks]. cbn [store suspended step] in *.
  destruct (tasks !! i) as [task|] eqn:Hi; [|done].
  destruct (Forall2_lookup_r _ _ _ _ _ Htasks Hi)
    as (li & Hli & Hne & Hres).
  destruct task as [|seg rest]; [done|].
  inversion_clear Hres as [|? ? Hseg Hrest].
  destruct (run_resumable li seg s Hseg)
    as (Hlen & Htypes & Hframe & (qs & Hpp & Hqs) & Hsr & Hin).
  assert (Hpair' : paired (chatHistory (run seg s)))
    by (by eapply paired_same_types).
  assert (Hshow' : chatHistory (run seg s) = []
                   \/ showResult (run seg s) = true).
  { destruct Hshow as [Hnil|Htrue]; [left|right; congruence].
    apply length_zero_iff_nil. rewrite Hlen, Hnil. done. }
  assert (Hsplit : tasks = take i tasks ++ (seg :: rest) :: drop (S i) tasks)
    by (by rewrite take_drop_middle).
  assert (Hold : pending_prompts tasks
                 = (pending_prompts (take i tasks)
                    + (length (List.filter adds_prompt seg)
                       + pending_prompts (rest :: drop (S i) tasks)))%nat).
  { rewrite Hsplit at 1.
    by rewrite pending_prompts_app, pending_prompts_cons. }
  assert (Hilt : (i < length tasks)%nat) by (by eapply lookup_lt_Some).
  destruct rest as [|seg' rest].
  - unfold consistent. cbn [store suspended]. split_and!; [done| |done|].
    + exists (delete i targets). split_and!.
      * by apply Forall2_delete.
      * apply (sublist_NoDup _ targets); [done|apply sublist_delete].
      * apply Forall_delete. eapply Forall_impl; [exact Hbounds|].
        intros x [? ?]. split; [lia|done].
    + rewrite delete_take_drop, pending_prompts_app, Hpp, length_app, Hlen.
      rewrite pending_prompts_nil_task in Hold. lia.
  - unfold consistent. cbn [store suspended]. split_and!; [done| |done|].
    + exists targets. split_and!; [|done|].
      * rewrite <- (list_insert_id targets i li Hli).
        apply Forall2_insert; [done|]. split; [done|done].
      * eapply Forall_impl; [exact Hbounds|].
        intros x [? ?]. split; [lia|done].
    + rewrite insert_take_drop by done.
      rewrite pending_prompts_app, Hpp, length_app, Hlen. lia.
Qed.

Lemma consistent_step a ev : consistent a -> consistent (step a ev).
Proof.
  intros Ha. destruct ev as [value|net|query net|i].
  - destruct Ha as (Hpair & Htasks & Hshow & Hcount).
    destruct a as [s tasks]. by split_and!.
  - apply (consistent_start ViaForm a net Ha).
  - cbn [step]. destruct (showResult (store a)); [done|].
    apply (consistent_start (ViaQueryCard query) a net Ha).
  - by apply consistent_resume.
Qed.

Lemma consistent_exec_from events a :
  consistent a -> consistent (exec events a).
Proof.
  revert a. induction events as [|ev events IH]; intros a Ha; [done|].
  apply IH, consistent_step, Ha.
Qed.

Lemma consistent_exec events : consistent (exec events initialApp).
Proof. apply consistent_exec_from, consistent_initial. Qed.

(** X10: in every state the application can reach, with calls
    overlapping in any way, the history has even length with a user
    entry at every even index and a bot entry at every odd one; the
    result pane alternates a user message and a loader or answer. *)
Theorem history_is_paired events :
  let h := chatHistory (store (exec events initialApp)) in
  Nat.even (length h) = true
  /\ (forall i c, h !! i = Some c ->
        type c = if Nat.even i then user else bot)
  /\ (forall i m, result h !! i = Some m ->
        if Nat.even i then exists t, m = UserMessage t
        else m = ResponseLoader \/ exists t, m = BotMessage t).
Proof.
  destruct (consistent_exec events) as ((Hev & Hty) & _).
  cbn zeta. split_and!; [done|done|].
  intros i m Hm. unfold result in Hm. rewrite list_lookup_fmap in Hm.
  destruct (chatHistory _ !! i) as [c|] eqn:Hc; [|done].
  injection Hm as <-. specialize (Hty i c Hc). unfold render_chat.
  rewrite Hty. destruct (Nat.even i); [by eexists|].
  destruct (shows_loader c); [by left|right; by eexists].
Qed.

(** X11: in every reachable state each suspended call has a bot entry
    of its own: the suspended calls have pairwise different target
    indices, each target is an existing bot entry, and every effect a
    call still has to run leaves the length of the history and all
    entries other than its target as they are. *)
Theorem suspended_calls_have_their_own_entry events :
  let a := exec events initialApp in
  exists targets : list nat,
    length targets = length (suspended a)
    /\ NoDup targets
    /\ forall i li task,
         targets !! i = Some li -> suspended a !! i = Some task ->
         (exists c, chatHistory (store a) !! (li + 1)%nat = Some c
                    /\ type c = bot)
         /\ forall e s0, e ∈ concat task ->
              length (chatHistory (apply_effect s0 e))
              = length (chatHistory s0)
              /\ forall j, j <> (li + 1)%nat ->
                   chatHistory (apply_effect s0 e) !! j = chatHistory s0 !! j.
Proof.
  cbn zeta.
  destruct (consistent_exec events)
    as ((Hev & Hty) & (targets & Htasks & Hnodup & Hbounds) & _).
  exists targets. split_and!; [by eapply Forall2_length|done|].
  intros i li task Hli Htask.
  destruct (Forall2_lookup_lr _ _ _ _ _ _ Htasks Hli Htask) as [_ Hres].
  rewrite Forall_forall in Hbounds.
  destruct (Hbounds li (list_elem_of_lookup_2 _ _ _ Hli)) as [Hlt Heven].
  split.
  - destruct (lookup_lt_is_Some_2 _ _ Hlt) as [c Hc]. exists c.
    split; [done|]. rewrite (Hty _ _ Hc).
    by rewrite Nat.add_1_r, Nat.even_succ, <- Nat.negb_even, Heven.
  - intros e s0 He. rewrite list_elem_of_In, in_concat in He.
    destruct He as (seg & Hseg & He).
    apply list_elem_of_In in Hseg. apply list_elem_of_In in He.
    rewrite Forall_forall in Hres. specialize (Hres seg Hseg).
    rewrite Forall_forall in Hres. specialize (Hres e He).
    destruct (apply_resumable li e s0 Hres) as (Hl & _ & Hf & _).
    by split.
Qed.

(** X12: in every reachable state the previous prompts are at most as
    many as the user entries of the history. *)
Theorem prompts_never_outnumber_questions events :
  let s := store (exec events initialApp) in
  (2 * length (previousPrompt s) <= length (chatHistory s))%nat.
Proof.
  destruct (consistent_exec events) as (_ & _ & _ & Hcount).
  cbn zeta. lia.
Qed.

(** X13: in every reachable state with a non-empty history the result
    pane is on, so the query cards are no longer rendered and a click on
    one does nothing: only a first submission can come from a card. *)
Theorem query_cards_only_before_first_submission events query net :
  let a := exec events initialApp in
  chatHistory (store a) <> [] ->
  showResult (store a) = true /\ step a (QueryClick query net) = a.
Proof.
  cbn zeta. intros Hne.
  destruct (consistent_exec events) as (_ & _ & [Hnil|Hshow] & _); [done|].
  split; [done|]. cbn [step]. by rewrite Hshow.
Qed.

Lemma query_cards_only_before_first_submission_witness :
  let a := exec [Typing (js "Ping"); Submit status_500] initialApp in
  chatHistory (store a) <> []
  /\ step a (QueryClick (js "Q") deadline_net) = a.
Proof.
  assert (Hne : chatHistory
                  (store (exec [Typing (js "Ping"); Submit status_500]
                               initialApp)) <> []) by discriminate.
  split; [exact Hne|].
  exact (proj2 (query_cards_only_before_first_submission
                  [Typing (js "Ping"); Submit status_500]
                  (js "Q") deadline_net Hne)).
Defined.

(** X14: submitting the form twice in a row, without typing in
    between, submits once: [handleSend] clears the input, and the second
    submit stops at the guard. *)
Theorem submitting_twice_submits_once a net net' :
  step (step a (Submit net)) (Submit net') = step a (Submit net).
Proof.
  assert (Hnoop : forall b, input (store b) = [] ->
                            step b (Submit net') = b).
  { intros [s tasks] Hin. cbn [step store] in *. unfold start.
    by rewrite Hin, handleSend_empty. }
  destruct (input (store a)) as [|c q] eqn:Hin.
  - destruct a as [s tasks]. cbn [step store] in *. unfold start.
    rewrite Hin, handleSend_empty. cbn. apply (Hnoop (mkApp s tasks) Hin).
  - apply Hnoop. rewrite step_Submit_store.
    assert (Hacc : accepted ViaForm (store a) = true)
      by (unfold accepted; by rewrite Hin).
    rewrite (first_segment_accepted ViaForm _ net Hacc). reflexivity.
Qed.

Lemma keeps_refl s : keeps s s.
Proof. unfold keeps. split_and!; eauto. Qed.

Lemma keeps_trans s1 s2 s3 : keeps s1 s2 -> keeps s2 s3 -> keeps s1 s3.
Proof.
  intros (Hp1 & Hl1 & Ht1 & Hu1) (Hp2 & Hl2 & Ht2 & Hu2).
  unfold keeps. split_and!.
  - by etrans.
  - lia.
  - intros i c Hc. destruct (Ht1 i c Hc) as (c1 & Hc1 & Hty1).
    destruct (Ht2 i c1 Hc1) as (c2 & Hc2 & Hty2).
    exists c2. split; [done|congruence].
  - intros i c Hc Hty. apply Hu2; [|done]. by apply Hu1.
Qed.

Lemma start_store ep s tasks net :
  store (start (call ep s net) (mkApp s tasks))
  = if accepted ep s then run (opening ep (question_of ep s)) s else s.
Proof.
  destruct (accepted ep s) eqn:Hacc.
  - unfold start. rewrite (call_effects ep s net Hacc). cbn [fst].
    rewrite segments_opening. by destruct (segments _).
  - destruct ep as [|query]; [|discriminate]. unfold accepted in Hacc.
    destruct (input s) eqn:Hin; [|discriminate].
    unfold start. cbn [call]. by rewrite Hin, handleSend_empty.
Qed.

Lemma keeps_opening ep s :
  keeps s (run (opening ep (question_of ep s)) s).
Proof.
  unfold keeps. rewrite opening_history, opening_same_prompts.
  split_and!; [done|rewrite length_app; lia| |].
  - intros i c Hc. exists c. split; [|done].
    by apply lookup_app_l_Some.
  - intros i c Hc _. by apply lookup_app_l_Some.
Qed.

Lemma keeps_step a ev :
  consistent a -> keeps (store a) (store (step a ev)).
Proof.
  intros ((Hev & Hty) & (targets & Htasks & _ & Hbounds) & _).
  destruct a as [s tasks]. cbn [store suspended] in *.
  destruct ev as [value|net|query net|i]; cbn [step store suspended].
  - unfold keeps. cbn. split_and!; eauto.
  - change (BottomSection.handleSend (chatHistory s) (input s) net)
      with (call ViaForm s net).
    rewrite start_store. destruct (accepted ViaForm s);
      [apply keeps_opening|apply keeps_refl].
  - destruct (showResult s); [apply keeps_refl|].
    change (Main.handleQueryClick (chatHistory s) query net)
      with (call (ViaQueryCard query) s net).
    rewrite start_store. cbn [accepted].
    apply (keeps_opening (ViaQueryCard query)).
  - destruct (tasks !! i) as [task|] eqn:Hi; [|apply keeps_refl].
    destruct (Forall2_lookup_r _ _ _ _ _ Htasks Hi) as (li & Hli & _ & Hres).
    rewrite Forall_forall in Hbounds.
    destruct (Hbounds li (list_elem_of_lookup_2 _ _ _ Hli)) as [Hlt Heven].
    assert (Hrun : forall seg, Forall (resumable li) seg ->
                               keeps s (run seg s)).
    { intros seg Hseg.
      destruct (run_resumable li seg s Hseg)
        as (Hlen & Htypes & Hframe & (qs & Hpp & _) & _).
      unfold keeps. split_and!.
      - rewrite Hpp. by apply prefix_app_r.
      - lia.
      - intros j c Hc. specialize (Htypes j). rewrite Hc in Htypes.
        destruct (chatHistory (run seg s) !! j) as [c'|]; [|done].
        exists c'. split; [done|]. by injection Htypes.
      - intros j c Hc Huser. rewrite Hframe; [done|].
        intros ->. specialize (Hty _ _ Hc).
        rewrite Nat.add_1_r, Nat.even_succ, <- Nat.negb_even, Heven in Hty.
        cbn in Hty. congruence. }
    destruct task as [|seg [|seg' rest]]; [apply keeps_refl|..];
      inversion_clear Hres; cbn [store]; by apply Hrun.
Qed.

Lemma keeps_exec more a :
  consistent a -> keeps (store a) (store (exec more a)).
Proof.
  revert a. induction more as [|ev more IH]; intros a Ha.
  - apply keeps_refl.
  - eapply keeps_trans; [by apply keeps_step|].
    apply (IH (step a ev)), consistent_step, Ha.
Qed.

(** X15: from any reachable state, whatever happens later: the
    previous prompts only grow at the end, the history does not get
    shorter, every entry keeps its type, and every user entry stays
    exactly as it is. *)
Theorem questions_and_prompts_are_kept events more :
  keeps (store (exec events initialApp))
        (store (exec (events ++ more) initialApp)).
Proof.
  unfold exec. rewrite foldl_app. apply keeps_exec, consistent_exec.
Qed.

(** ** The loading flag of the running application *)

Lemma segments_nonempty l :
  Forall (fun seg : list Effect => seg <> []) (segments l).
Proof.
  induction l as [|e l IH]; [constructor|]. cbn [segments].
  destruct (is_await e); [by constructor|].
  destruct (segments l) as [|seg segs]; [by repeat constructor|].
  inversion_clear IH. by constructor.
Qed.

Lemma run_ends_with_release seg s :
  last seg = Some (SetLoadings false) -> loadings (run seg s) = false.
Proof.
  intros Hlast. destruct (last_Some seg (SetLoadings false)) as [[l ->] _];
    [done|]. by rewrite run_app.
Qed.

Lemma releasing_initial : releasing initialApp.
Proof. split; [constructor|done]. Qed.

Lemma releasing_start ep a net :
  releasing a -> releasing (start (call ep (store a) net) a).
Proof.
  intros [Htasks Hidle]. destruct a as [s tasks]. cbn [store suspended] in *.
  destruct (accepted ep s) eqn:Hacc.
  2:{ destruct ep as [|query]; [|discriminate]. unfold accepted in Hacc.
      destruct (input s) eqn:Hin; [|discriminate].
      unfold start. cbn [call]. rewrite Hin, handleSend_empty. by split. }
  unfold start. rewrite (call_effects ep s net Hacc). cbn [fst store suspended].
  rewrite segments_opening.
  set (tail := looping _ net ++ closing ep _ net ++ [SetLoadings false]).
  assert (Hlast : last (concat (segments tail)) = Some (SetLoadings false)).
  { rewrite concat_segments. subst tail.
    by rewrite !app_assoc, last_snoc. }
  pose proof (segments_nonempty tail) as Hne.
  destruct (segments tail) as [|seg2 rest2] eqn:Hsegs; [done|].
  split; cbn [store suspended].
  - apply Forall_app. split; [done|]. constructor; [by split|constructor].
  - intros Hnil. by destruct tasks.
Qed.

Lemma releasing_step a ev : releasing a -> releasing (step a ev).
Proof.
  intros Ha. destruct ev as [value|net|query net|i].
  - destruct Ha as [Htasks Hidle]. destruct a. by split.
  - apply (releasing_start ViaForm a net Ha).
  - cbn [step]. destruct (showResult (store a)); [done|].
    apply (releasing_start (ViaQueryCard query) a net Ha).
  - pose proof Ha as [Htasks Hidle].
    destruct a as [s tasks]. cbn [step store suspended] in *.
    destruct (tasks !! i) as [task|] eqn:Hi; [|done].
    rewrite Forall_forall in Htasks.
    destruct (Htasks task (list_elem_of_lookup_2 _ _ _ Hi)) as [Hne Hlast].
    destruct task as [|seg [|seg' rest]]; [done|..].
    + split; cbn [store suspended].
      * apply Forall_delete. by apply Forall_forall.
      * intros _. apply run_ends_with_release.
        cbn [concat] in Hlast. by rewrite app_nil_r in Hlast.
    + split; cbn [store suspended].
      * apply Forall_insert; [by apply Forall_forall|].
        inversion_clear Hne as [|? ? Hseg Hrest]. split; [done|].
        inversion_clear Hrest as [|? ? Hseg' _].
        change (concat (seg :: seg' :: rest))
          with (seg ++ concat (seg' :: rest)) in Hlast.
        rewrite last_app in Hlast.
        destruct (last (concat (seg' :: rest))) eqn:Hl; [done|].
        apply last_None in Hl. cbn [concat] in Hl.
        by apply app_eq_nil in Hl as [-> _].
      * intros Hnil. apply (f_equal length) in Hnil.
        rewrite length_insert in Hnil. apply lookup_lt_Some in Hi.
        cbn in Hnil. lia.
Qed.

Lemma releasing_exec events : releasing (exec events initialApp).
Proof.
  assert (H : forall a, releasing a -> releasing (exec events a)).
  { induction events as [|ev events IH]; intros a Ha; [done|].
    apply IH, releasing_step, Ha. }
  apply H, releasing_initial.
Qed.

(** X16: in every reachable state in which no updater has thrown (the
    application is still mounted), [loadings] is false when no call is
    suspended; and in every reachable state every suspended call has its
    [setLoadings(false)] still to come, as the last thing it will do. *)
Theorem loadings_is_false_when_idle events :
  let a := exec events initialApp in
  (mounted (store a) -> suspended a = [] -> loadings (store a) = false)
  /\ forall task, task ∈ suspended a ->
       last (concat task) = Some (SetLoadings false).
Proof.
  cbn zeta. destruct (releasing_exec events) as [Htasks Hidle].
  split; [by intros _|]. intros task Htask.
  rewrite Forall_forall in Htasks. by destruct (Htasks task Htask).
Qed.

Lemma loadings_is_false_when_idle_witness :
  let a := exec [ Typing (js "What is the deadline?"); Submit deadline_net;
                  Resume 0; Resume 0; Resume 0; Resume 0; Resume 0 ]
                initialApp in
  mounted (store a) /\ suspended a = [] /\ loadings (store a) = false.
Proof.
  split; [reflexivity|]. split; [reflexivity|].
  exact (proj1 (loadings_is_false_when_idle
                  [ Typing (js "What is the deadline?"); Submit deadline_net;
                    Resume 0; Resume 0; Resume 0; Resume 0; Resume 0 ])
               eq_refl eq_refl).
Defined.

(** ** Well-formed text *)

Lemma lor_shiftl_low cp k :
  0 <= k < 64 -> Z.lor (Z.shiftl cp 6) k = cp * 64 + k.
Proof.
  intros Hk. rewrite Z.shiftl_mul_pow2 by lia. change (2 ^ 6) with 64.
  assert (Hland : Z.land (cp * 64) k = 0).
  { apply Z.bits_inj'. intros n Hn. rewrite Z.land_spec, Z.bits_0.
    destruct (Z.lt_ge_cases n 6) as [Hlt|Hge].
    - change 64 with (2 ^ 6). by rewrite Z.mul_pow2_bits_low.
    - destruct (Z.eq_dec k 0) as [->|Hk0];
        [by rewrite Z.bits_0, andb_false_r|].
      rewrite (Z.bits_above_log2 k n), andb_false_r; [done|lia|].
      assert (Z.log2 k < 6) by (apply Z.log2_lt_pow2; lia). lia. }
  by rewrite <- Z.lxor_lor, <- Z.add_nocarry_lxor.
Qed.

Lemma land_low_bits b n :
  0 <= n -> Z.land b (Z.ones n) = b mod 2 ^ n.
Proof. intros. by apply Z.land_ones. Qed.

Lemma byte_val_range b : 0 <= Utf8.byte_val b < 256.
Proof.
  unfold Utf8.byte_val. pose proof (Byte.to_N_bounded b). lia.
Qed.

Ltac range_cases :=
  repeat match goal with
  | |- context [Utf8.in_range ?lo ?hi ?v] =>
      let H := fresh "Hr" in
      destruct (Utf8.in_range lo hi v) eqn:H; unfold Utf8.in_range in H;
      [ apply andb_true_iff in H as [?%Z.leb_le ?%Z.leb_le]
      | apply andb_false_iff in H as [?%Z.leb_gt| ?%Z.leb_gt] ];
      cbn [negb]
  end.

Ltac eqb_cases :=
  repeat match goal with
  | |- context [?a =? ?b] => destruct (Z.eqb_spec a b)
  | H : context [?a =? ?b] |- _ => destruct (Z.eqb_spec a b)
  end.

Lemma scalar_replacement : Utf8.is_scalar Utf8.REPLACEMENT = true.
Proof. reflexivity. Qed.

Lemma is_scalar_range cp :
  (0 <= cp <= 0xD7FF \/ 0xE000 <= cp <= 0x10FFFF) -> Utf8.is_scalar cp = true.
Proof. unfold Utf8.is_scalar, Utf8.in_range. lia. Qed.

Lemma land_63 v : Z.land v 63 = v mod 64.
Proof. apply (Z.land_ones v 6). lia. Qed.
Lemma land_31 v : Z.land v 31 = v mod 32.
Proof. apply (Z.land_ones v 5). lia. Qed.
Lemma land_15 v : Z.land v 15 = v mod 16.
Proof. apply (Z.land_ones v 4). lia. Qed.
Lemma land_7 v : Z.land v 7 = v mod 8.
Proof. apply (Z.land_ones v 3). lia. Qed.

Lemma handler_idle b :
  match Utf8.handler Utf8.initial b with
  | Utf8.CodePoint d cp => d = Utf8.initial /\ Utf8.is_scalar cp = true
  | Utf8.Continue d => decoder_state_ok d
  | Utf8.DecodeError d restore => d = Utf8.initial /\ restore = false
  end.
Proof.
  unfold Utf8.handler. cbn [Utf8.bytes_needed Utf8.initial Utf8.bytes_seen
                            Utf8.lower_boundary Utf8.upper_boundary].
  pose proof (byte_val_range b) as Hb. set (v := Utf8.byte_val b) in *.
  range_cases; try (split; [done|]; try done; apply is_scalar_range; lia).
  all: unfold decoder_state_ok;
    cbn [Utf8.bytes_needed Utf8.bytes_seen Utf8.code_point
         Utf8.lower_boundary Utf8.upper_boundary];
    rewrite ?land_31, ?land_15, ?land_7;
    eqb_cases; split_and!; try done; Z.div_mod_to_equations; lia.
Qed.

Lemma handler_busy d b :
  decoder_state_ok d -> Utf8.bytes_needed d <> 0%nat ->
  match Utf8.handler d b with
  | Utf8.CodePoint d' cp => d' = Utf8.initial /\ Utf8.is_scalar cp = true
  | Utf8.Continue d' => decoder_state_ok d'
  | Utf8.DecodeError d' restore => d' = Utf8.initial /\ restore = true
  end.
Proof.
  intros Hok Hbusy. destruct d as [cp seen needed lo hi].
  unfold decoder_state_ok in Hok.
  cbn [Utf8.bytes_needed Utf8.bytes_seen Utf8.code_point
       Utf8.lower_boundary Utf8.upper_boundary] in *.
  pose proof (byte_val_range b) as Hb.
  assert (Hlow : 0 <= Utf8.byte_val b mod 64 < 64)
    by (apply Z.mod_pos_bound; lia).
  destruct needed as [|[|[|[|n]]]]; [done|..|done];
    destruct seen as [|[|[|m]]]; try done;
    destruct Hok as (Hcp & -> & ->);
    unfold Utf8.handler;
    cbn [Utf8.bytes_needed Utf8.bytes_seen Utf8.code_point
         Utf8.lower_boundary Utf8.upper_boundary];
    range_cases; try done; cbn [Nat.eqb];
    rewrite land_63, lor_shiftl_low by done;
    first [ split; [done|]; apply is_scalar_range
          | unfold decoder_state_ok;
            cbn [Utf8.bytes_needed Utf8.bytes_seen Utf8.code_point
                 Utf8.lower_boundary Utf8.upper_boundary];
            split_and!; try done ];
    eqb_cases; Z.div_mod_to_equations; lia.
Qed.

Lemma process_item_ok d b :
  decoder_state_ok d ->
  decoder_state_ok (fst (Utf8.process_item d b))
  /\ Forall (fun cp => Utf8.is_scalar cp = true)
            (snd (Utf8.process_item d b)).
Proof.
  intros Hok. unfold Utf8.process_item.
  destruct (Utf8.bytes_needed d) eqn:Hn.
  - assert (d = Utf8.initial) as ->.
    { unfold decoder_state_ok in Hok. by rewrite Hn in Hok. }
    pose proof (handler_idle b) as H.
    destruct (Utf8.handler Utf8.initial b) as [d'|d' cp|d' r]; cbn [fst snd].
    + split; [done|constructor].
    + destruct H as [-> Hcp]. split; [done|by repeat constructor].
    + destruct H as [-> ->]. split; [done|by repeat constructor].
  - pose proof (handler_busy d b Hok ltac:(by rewrite Hn)) as H.
    destruct (Utf8.handler d b) as [d'|d' cp|d' r]; cbn [fst snd].
    + split; [done|constructor].
    + destruct H as [-> Hcp]. split; [done|by repeat constructor].
    + destruct H as [-> ->].
      pose proof (handler_idle b) as H.
      destruct (Utf8.handler Utf8.initial b) as [d'|d' cp|d' r];
        cbn [fst snd].
      * split; [done|by repeat constructor].
      * destruct H as [-> Hcp]. split; [done|by repeat constructor].
      * destruct H as [-> ->]. split; [done|by repeat constructor].
Qed.

Lemma process_queue_ok d bytes :
  decoder_state_ok d ->
  decoder_state_ok (fst (Utf8.process_queue d bytes))
  /\ Forall (fun cp => Utf8.is_scalar cp = true)
            (snd (Utf8.process_queue d bytes)).
Proof.
  revert d. induction bytes as [|b bytes IH]; intros d Hok.
  - split; [done|constructor].
  - cbn [Utf8.process_queue].
    destruct (process_item_ok d b Hok) as [Hok1 Hout1].
    destruct (Utf8.process_item d b) as [d1 out1]. cbn [fst snd] in *.
    destruct (IH d1 Hok1) as [Hok2 Hout2].
    destruct (Utf8.process_queue d1 bytes) as [d2 out2]. cbn [fst snd] in *.
    split; [done|by apply Forall_app].
Qed.

Lemma serialize_sublist bom out P :
  Forall P out -> Forall (P : Z -> Prop) (snd (TextDecoder.serialize bom out)).
Proof.
  intros Hout. destruct out as [|item rest]; [done|]. cbn.
  destruct bom; [done|]. destruct (item =? 65279); [|done].
  by inversion_clear Hout.
Qed.

Lemma decode_well_formed bytes :
  exists scalars,
    Forall (fun cp => Utf8.is_scalar cp = true) scalars
    /\ snd (TextDecoder.decode TextDecoder.new bytes true)
       = TextDecoder.to_string scalars.
Proof.
  unfold TextDecoder.decode. cbn [TextDecoder.do_not_flush TextDecoder.new].
  assert (Hinit : decoder_state_ok Utf8.initial) by done.
  destruct (process_queue_ok Utf8.initial bytes Hinit) as [_ Hout].
  destruct (Utf8.process_queue Utf8.initial bytes) as [d1 out1].
  cbn [snd] in Hout.
  pose proof (serialize_sublist false out1 _ Hout) as Hser.
  destruct (TextDecoder.serialize false out1) as [bom out]. cbn [snd] in *.
  by exists out.
Qed.

(** X17: whatever bytes the server sends, the text of the bot entry at
    the end of an accepted call is well-formed UTF-16: it is the code
    units of a sequence of scalar values, with no lone surrogate. *)
Theorem answer_is_well_formed ep s net :
  accepted ep s = true ->
  exists scalars,
    Forall (fun cp => Utf8.is_scalar cp = true) scalars
    /\ text_at (chatHistory (run (fst (call ep s net)) s))
               (length (chatHistory s) + 1)
       = TextDecoder.to_string scalars.
Proof.
  intros Hacc. rewrite (call_history ep s net Hacc), text_at_bot.
  destruct (delivered net) as [|value rest] eqn:Hd.
  - exists []. by split.
  - cbn [text]. rewrite decoded_chunks_concat. apply decode_well_formed.
Qed.

Lemma answer_is_well_formed_witness :
  let net := stream_of [[xed; xa0]; [x80; xf0; x9f]; [x98; x80; xc3]]
                       EndOfStream in
  accepted ViaForm ping_store = true
  /\ exists scalars,
       Forall (fun cp => Utf8.is_scalar cp = true) scalars
       /\ text_at (chatHistory
                     (run (fst (call ViaForm ping_store net)) ping_store))
                  (length (chatHistory ping_store) + 1)
          = TextDecoder.to_string scalars.
Proof.
  split; [reflexivity|].
  exact (answer_is_well_formed ViaForm ping_store
           (stream_of [[xed; xa0]; [x80; xf0; x9f]; [x98; x80; xc3]]
                      EndOfStream) eq_refl).
Defined.
